(** * Memoizing front end of the YAML library: caches, keys and adapters

    A shallow embedding of the cache module [./cache/lru-cache.ts]
    (classes [LRUCache] and [TrackedLRUCache], function [hashString]) and
    of the module of the public entry points that imports it
    ([getCacheStats], [clearCaches], [parseOptions], [parseDocument],
    [parse], [stringify]).

    JavaScript values are a small inductive type, the host's [Map] is an
    association list in insertion order, and the two process-wide caches
    are threaded through a state-and-exception monad.  The lexer, parser,
    composer and stringifier of the library are an interface, [Engine]. *)

From Stdlib Require Import ZArith QArith Qround List String Ascii Bool Lia.
From Stdlib Require Import DecimalString Sorted.
Import ListNotations.
Close Scope Q_scope.

Set Implicit Arguments.
Set Warnings "-register-all".

(** ** JavaScript values *)

Module JS.

(** A JavaScript number.  Finite numbers are exact rationals: rounding to
    binary64 is not modelled.  [-0], [NaN] and the infinities are kept apart
    because the source tests for them. *)
Inductive number : Type :=
| NFin (q : Q)
| NNegZero
| NNaN
| NPosInf
| NNegInf.

(** Functions and pre-built YAML documents are opaque: they carry an
    identifier only. *)
Inductive value : Type :=
| VUndefined
| VNull
| VBool (b : bool)
| VNum (n : number)
| VStr (s : string)
| VFun (id : nat)
| VArr (items : list value)
| VObj (fields : list (string * value))
| VDoc (id : nat).

Inductive type_tag : Type :=
| TUndefined | TObject | TBoolean | TNumber | TString | TFunction.

(** [typeof v] *)
Definition typeof (v : value) : type_tag :=
  match v with
  | VUndefined => TUndefined
  | VNull => TObject
  | VBool _ => TBoolean
  | VNum _ => TNumber
  | VStr _ => TString
  | VFun _ => TFunction
  | VArr _ | VObj _ | VDoc _ => TObject
  end.

Definition type_tag_eqb (a b : type_tag) : bool :=
  match a, b with
  | TUndefined, TUndefined | TObject, TObject | TBoolean, TBoolean
  | TNumber, TNumber | TString, TString | TFunction, TFunction => true
  | _, _ => false
  end.

(** [v === undefined] and [v === null] *)
Definition is_undefined (v : value) : bool :=
  match v with VUndefined => true | _ => false end.

Definition is_null (v : value) : bool :=
  match v with VNull => true | _ => false end.

(** [v === false] *)
Definition is_false (v : value) : bool :=
  match v with VBool false => true | _ => false end.

Definition is_function (v : value) : bool :=
  match v with VFun _ => true | _ => false end.

(** [Array.isArray(v)] *)
Definition Array_isArray (v : value) : bool :=
  match v with VArr _ => true | _ => false end.

(** [ToBoolean]: the falsy values are [undefined], [null], [false], [0],
    [-0], [NaN] and the empty string. *)
Definition truthy (v : value) : bool :=
  match v with
  | VUndefined | VNull => false
  | VBool b => b
  | VNum (NFin q) => negb (Qeq_bool q 0%Q)
  | VNum NNegZero | VNum NNaN => false
  | VNum _ => true
  | VStr s => negb (String.eqb s EmptyString)
  | VFun _ | VArr _ | VObj _ | VDoc _ => true
  end.

(** [a || b] and [a ?? b] on values *)
Definition or_else (a b : value) : value := if truthy a then a else b.

Definition nullish (v : value) : bool := is_undefined v || is_null v.

Definition coalesce (a b : value) : value := if nullish a then b else a.

(** [isFinite(v)] and [Object.is(v, -0)]; the source calls them on values
    whose [typeof] is number *)
Definition isFinite (v : value) : bool :=
  match v with VNum (NFin _) | VNum NNegZero => true | _ => false end.

Definition Object_is_neg_zero (v : value) : bool :=
  match v with VNum NNegZero => true | _ => false end.

(** [isDocument(v)] *)
Definition isDocument (v : value) : bool :=
  match v with VDoc _ => true | _ => false end.

(** Own property lookup [o.name] on a plain object: the first binding of
    the name, [undefined] when there is none. *)
Fixpoint lookup_field (name : string) (fields : list (string * value)) : value :=
  match fields with
  | [] => VUndefined
  | (k, v) :: rest => if String.eqb name k then v else lookup_field name rest
  end.

(** [v.name] for a non-nullish [v].  Only plain objects carry the option
    names read by the adapters; every other receiver answers [undefined]. *)
Definition get_prop (v : value) (name : string) : value :=
  match v with
  | VObj fields => lookup_field name fields
  | _ => VUndefined
  end.

End JS.

Import JS.

(** ** The host's [Map]: bindings in insertion order, keys unique *)

Module JSMap.
Section WithKey.
Variable K : Type.
Variable K_eq_dec : forall x y : K, {x = y} + {x <> y}.

Definition t : Type := list (K * value).

Definition empty : t := [].

(** [m.get(k)]: [undefined] when the key is not bound *)
Fixpoint get (k : K) (m : t) : value :=
  match m with
  | [] => VUndefined
  | (k', v) :: m' => if K_eq_dec k k' then v else get k m'
  end.

(** [m.has(k)] *)
Fixpoint has (k : K) (m : t) : bool :=
  match m with
  | [] => false
  | (k', _) :: m' => if K_eq_dec k k' then true else has k m'
  end.

(** [m.delete(k)] *)
Definition delete (k : K) (m : t) : t :=
  filter (fun p => if K_eq_dec k (fst p) then false else true) m.

(** [m.set(k, v)]: a bound key keeps its place, a new key goes last *)
Fixpoint set (k : K) (v : value) (m : t) : t :=
  match m with
  | [] => [(k, v)]
  | (k', v') :: m' =>
      if K_eq_dec k k' then (k, v) :: m' else (k', v') :: set k v m'
  end.

(** [m.size] *)
Definition size (m : t) : nat := List.length m.

(** [m.keys().next().value]: [None] stands for [undefined], the answer
    of an exhausted iterator *)
Definition first_key (m : t) : option K :=
  match m with
  | [] => None
  | (k, _) :: _ => Some k
  end.

Definition keys (m : t) : list K := map fst m.

(** Well-formed maps bind every key once. *)
Definition wf (m : t) : Prop := NoDup (keys m).
End WithKey.
End JSMap.

(** ** [class LRUCache<K, V>]

    This is the store at an integer capacity, the case of every store the
    adapters build.  The source types [maxSize] as [number]; the store at
    any number is [LRUCacheNum] below, which agrees with this one at the
    integers ([NumberCapacityFacts.integer_capacity_refines]). *)

Module LRUCache.
Section WithKey.
Variable K : Type.
Variable K_eq_dec : forall x y : K, {x = y} + {x <> y}.

(** [maxSize] is an integer here *)
Record t : Type := mk { cache : JSMap.t K; maxSize : Z }.

(** [constructor(maxSize = 2000)] *)
Definition new (maxSize : option Z) : t :=
  mk (JSMap.empty K) (match maxSize with Some n => n | None => 2000%Z end).

(** [get(key)]: a defined value is moved to the end of the map *)
Definition get (key : K) (c : t) : value * t :=
  let value := JSMap.get K_eq_dec key (cache c) in
  if negb (is_undefined value)
  then (value,
        mk (JSMap.set K_eq_dec key value (JSMap.delete K_eq_dec key (cache c)))
           (maxSize c))
  else (value, c).

(** [set(key, value)] *)
Definition set (key : K) (v : value) (c : t) : t :=
  let m := cache c in
  let m1 :=
    if JSMap.has K_eq_dec key m then JSMap.delete K_eq_dec key m
    else if (maxSize c <=? Z.of_nat (JSMap.size m))%Z then
      match JSMap.first_key m with
      | Some firstKey => JSMap.delete K_eq_dec firstKey m
      | None => m
      end
    else m in
  mk (JSMap.set K_eq_dec key v m1) (maxSize c).

(** [has(key)] *)
Definition has (key : K) (c : t) : bool := JSMap.has K_eq_dec key (cache c).

(** [clear()] *)
Definition clear (c : t) : t := mk (JSMap.empty K) (maxSize c).

(** [get size()] *)
Definition size (c : t) : nat := JSMap.size (cache c).

(** [get hitRate()] of the base class *)
Definition hitRate (c : t) : Q := 0%Q.

(** What every operation keeps: unique keys, and the size bound when the
    capacity is at least one. *)
Definition bounded (c : t) : Prop :=
  JSMap.wf (cache c) /\ (Z.of_nat (size c) <= maxSize c)%Z.
End WithKey.
End LRUCache.

(** ** [hashString] *)

(** [ToInt32]: the signed 32-bit integer congruent to [z] *)
Definition to_int32 (z : Z) : Z := ((z + 2 ^ 31) mod 2 ^ 32 - 2 ^ 31)%Z.

(** [str.charCodeAt(i)]; the strings of the model hold code units below 256 *)
Definition charCode (c : ascii) : Z := Z.of_N (N_of_ascii c).

(** One digit of [Number.prototype.toString(36)]: [0-9] then [a-z] *)
Definition digit36 (d : Z) : ascii :=
  if (d <? 10)%Z then ascii_of_N (Z.to_N (48 + d)) else ascii_of_N (Z.to_N (87 + d)).

Fixpoint radix36_digits (fuel : nat) (n : Z) (acc : string) : string :=
  match fuel with
  | O => acc
  | S fuel' =>
      let acc' := String (digit36 (n mod 36)) acc in
      if (n / 36 =? 0)%Z then acc' else radix36_digits fuel' (n / 36) acc'
  end.

(** [n.toString(36)] for an integer [n]; a number of [b] bits has at most
    [b] digits, which bounds the recursion. *)
Definition Number_toString36 (n : Z) : string :=
  let fuel := S (Z.to_nat (Z.log2 (Z.abs n))) in
  if (n <? 0)%Z then String "-"%char (radix36_digits fuel (- n) EmptyString)
  else radix36_digits fuel n EmptyString.

(** The loop body: [hash = ((hash << 5) - hash) + char; hash = hash & hash] *)
Definition hash_step (hash : Z) (c : ascii) : Z :=
  let char := charCode c in
  let hash := (to_int32 (Z.shiftl (to_int32 hash) 5) - hash + char)%Z in
  Z.land (to_int32 hash) (to_int32 hash).

Fixpoint hash_loop (str : string) (hash : Z) : Z :=
  match str with
  | EmptyString => hash
  | String c rest => hash_loop rest (hash_step hash c)
  end.

Definition hashString (str : string) : string :=
  Number_toString36 (hash_loop str 0%Z).

(** Reading base-36 digits back, most significant first *)
Definition digit_value (c : ascii) : Z :=
  let n := Z.of_N (N_of_ascii c) in
  if (n <? 58)%Z then (n - 48)%Z else (n - 87)%Z.

Fixpoint value36 (s : string) (acc : Z) : Z :=
  match s with
  | EmptyString => acc
  | String c rest => value36 rest (acc * 36 + digit_value c)%Z
  end.

(** ** [class TrackedLRUCache<K, V> extends LRUCache<K, V>] *)

Module TrackedLRUCache.
Section WithKey.
Variable K : Type.
Variable K_eq_dec : forall x y : K, {x = y} + {x <> y}.

(** The inherited part and the two private counters *)
Record t : Type := mk { base : LRUCache.t K; hits : Z; misses : Z }.

Definition new (maxSize : option Z) : t := mk (LRUCache.new K maxSize) 0 0.

(** [get(key)]: [super.get(key)], then one of the counters is bumped *)
Definition get (key : K) (c : t) : value * t :=
  let (value, b) := LRUCache.get K_eq_dec key (base c) in
  if negb (is_undefined value)
  then (value, mk b (hits c + 1) (misses c))
  else (value, mk b (hits c) (misses c + 1)).

(** Inherited methods *)
Definition set (key : K) (v : value) (c : t) : t :=
  mk (LRUCache.set K_eq_dec key v (base c)) (hits c) (misses c).

Definition has (key : K) (c : t) : bool := LRUCache.has K_eq_dec key (base c).

Definition clear (c : t) : t := mk (LRUCache.clear (base c)) (hits c) (misses c).

Definition size (c : t) : nat := LRUCache.size (base c).

(** [get hitRate()]; the quotient is the exact rational *)
Definition hitRate (c : t) : Q :=
  let total := (hits c + misses c)%Z in
  if (total =? 0)%Z then 0%Q else (inject_Z (hits c) / inject_Z total)%Q.

Record stats_t : Type :=
  mk_stats { s_hits : Z; s_misses : Z; s_hitRate : Q; s_size : nat }.

(** [get stats()] *)
Definition stats (c : t) : stats_t :=
  mk_stats (hits c) (misses c) (hitRate c) (size c).

(** [resetStats()] *)
Definition resetStats (c : t) : t := mk (base c) 0 0.
End WithKey.
End TrackedLRUCache.

(** ** Documents, errors and the external collaborators *)

(** A [YAMLParseError] or [YAMLWarning]: position, code and message *)
Record yaml_error : Type :=
  mk_error { err_pos : list Z; err_code : string; err_message : string }.

(** What the adapters read of a composed [Document]: its [errors] and
    [warnings] arrays, [options.logLevel] and [range].  [doc_id] names
    the tree, which stays with the engine. *)
Record document : Type :=
  mk_document {
    doc_id : nat;
    errors : list yaml_error;
    warnings : list yaml_error;
    logLevel : string;
    range : list Z }.

(** What a call can throw: an error of the document, the host's
    [TypeError], or whatever an engine operation raises. *)
Inductive exn : Type :=
| ThrownError (e : yaml_error)
| TypeError
| ThrownByEngine (tag : nat).

Inductive result (A : Type) : Type :=
| Ok (a : A)
| Throw (e : exn).
Arguments Ok {A} a.
Arguments Throw {A} e.

(** Operations of the host and of the YAML engine that the adapters call
    and that live outside the memoizing layer. *)
Class Engine : Type := {
  (** [String(n)] for a finite number that is not an integer below [10^21]
      in magnitude *)
  Number_toString_other : Q -> string;
  (** [JSON.stringify(doc)] for a [Document], through its [toJSON] *)
  Document_JSON : nat -> option string;
  (** [composer.compose(parser.parse(source), true, source.length)] for
      [new Composer(options)]: the documents in the order they are yielded *)
  compose : string -> value -> list document;
  (** [doc.toJS(Object.assign({ reviver }, options))], given the reviver
      and the options that are merged *)
  toJS : document -> value -> value -> result value;
  (** [prettifyError(source, lineCounter)] applied to one error *)
  prettifyError : string -> value -> yaml_error -> yaml_error;
  (** [new Document(value, replacer, options).toString(options)] *)
  new_Document_toString : value -> value -> value -> result string;
  (** [value.toString(options)] for a value that is a [Document] *)
  Document_toString : nat -> value -> result string
}.

(** ** Host functions on numbers and [JSON.stringify] *)

Definition Q_is_integer (q : Q) : bool := (Z.pos (Qden (Qred q)) =? 1)%Z.

(** [String(n)] *)
Definition Number_toString `{Engine} (n : number) : string :=
  match n with
  | NFin q =>
      if Q_is_integer q && (Z.abs (Qnum (Qred q)) <? 10 ^ 21)%Z
      then NilZero.string_of_int (Z.to_int (Qnum (Qred q)))
      else Number_toString_other q
  | NNegZero => "0"
  | NNaN => "NaN"
  | NPosInf => "Infinity"
  | NNegInf => "-Infinity"
  end.

(** [Math.round(n)]: the nearest integer, halves upwards; a negative
    number that rounds to zero gives [-0] *)
Definition Math_round (n : number) : number :=
  match n with
  | NFin q =>
      let r := Qfloor (q + (1 # 2))%Q in
      if (r =? 0)%Z && negb (Qle_bool 0%Q q) then NNegZero else NFin (inject_Z r)
  | _ => n
  end.

(** [n < k] and [n > k] against an integer constant; [NaN] compares false *)
Definition Number_lt_int (n : number) (k : Z) : bool :=
  match n with
  | NFin q => negb (Qle_bool (inject_Z k) q)
  | NNegZero => (0 <? k)%Z
  | NNaN | NPosInf => false
  | NNegInf => true
  end.

Definition Number_gt_int (n : number) (k : Z) : bool :=
  match n with
  | NFin q => negb (Qle_bool q (inject_Z k))
  | NNegZero => (k <? 0)%Z
  | NNaN | NNegInf => false
  | NPosInf => true
  end.

Definition dquote : ascii := "034"%char.
Definition backslash : ascii := "092"%char.

Definition hex_digit (n : N) : ascii :=
  if (n <? 10)%N then ascii_of_N (48 + n) else ascii_of_N (87 + n).

(** One code unit inside a JSON string literal *)
Definition JSON_escape (c : ascii) : string :=
  let n := N_of_ascii c in
  if (n =? 34)%N then String backslash (String dquote EmptyString)
  else if (n =? 92)%N then String backslash (String backslash EmptyString)
  else if (n =? 8)%N then String backslash "b"
  else if (n =? 12)%N then String backslash "f"
  else if (n =? 10)%N then String backslash "n"
  else if (n =? 13)%N then String backslash "r"
  else if (n =? 9)%N then String backslash "t"
  else if (n <? 32)%N
       then String backslash
              (String "u" (String "0" (String "0"
                 (String (hex_digit (n / 16)) (String (hex_digit (n mod 16)) EmptyString)))))
  else String c EmptyString.

Fixpoint JSON_escape_all (s : string) : string :=
  match s with
  | EmptyString => EmptyString
  | String c rest => (JSON_escape c ++ JSON_escape_all rest)%string
  end.

Definition JSON_quote (s : string) : string :=
  String dquote (JSON_escape_all s ++ String dquote EmptyString)%string.

(** Elements joined by commas *)
Fixpoint join_comma (parts : list string) : string :=
  match parts with
  | [] => EmptyString
  | [p] => p
  | p :: rest => (p ++ "," ++ join_comma rest)%string
  end.

Definition JSON_number `{Engine} (n : number) : string :=
  match n with
  | NNaN | NPosInf | NNegInf => "null"
  | _ => Number_toString n
  end.

(** [JSON.stringify(v)]: [None] is the [undefined] answer.  In an array a
    function or [undefined] reads [null]; in an object such a property is
    left out; properties come in insertion order (names that are array
    indices, which the host lists first, do not occur among the options).
    Objects with a [toJSON] of their own, other than documents, and cyclic
    objects are outside the model. *)
Fixpoint JSON_stringify `{Engine} (v : value) : option string :=
  match v with
  | VUndefined | VFun _ => None
  | VNull => Some "null"%string
  | VBool true => Some "true"%string
  | VBool false => Some "false"%string
  | VNum n => Some (JSON_number n)
  | VStr s => Some (JSON_quote s)
  | VArr items =>
      Some ("[" ++ join_comma
              (map (fun x => match JSON_stringify x with
                             | Some s => s
                             | None => "null"%string
                             end) items) ++ "]")%string
  | VObj fields =>
      Some ("{" ++ join_comma
              (flat_map (fun p => match JSON_stringify (snd p) with
                                  | Some s => [(JSON_quote (fst p) ++ ":" ++ s)%string]
                                  | None => []
                                  end) fields) ++ "}")%string
  | VDoc id => Document_JSON id
  end.

(** The text of one property of an object, if the property is written *)
Definition JSON_property `{Engine} (p : string * value) : list string :=
  match JSON_stringify (snd p) with
  | Some s => [(JSON_quote (fst p) ++ ":" ++ s)%string]
  | None => []
  end.

(** A string operand of [+]: [undefined] reads as the word *)
Definition concat_operand (o : option string) : string :=
  match o with Some s => s | None => "undefined"%string end.

(** ** The process-wide caches and the monad of the adapters *)

Record world : Type :=
  mk_world {
    parseCache : TrackedLRUCache.t string;
    stringifyCache : TrackedLRUCache.t string;
    (** the calls [warn(logLevel, warning)] made so far *)
    warn_calls : list (string * yaml_error) }.

(** [new TrackedLRUCache(2000)], twice *)
Definition initial_world : world :=
  mk_world (TrackedLRUCache.new string (Some 2000%Z))
           (TrackedLRUCache.new string (Some 2000%Z)) [].

Definition M (A : Type) : Type := world -> result A * world.

Definition ret {A} (a : A) : M A := fun w => (Ok a, w).

Definition throw {A} (e : exn) : M A := fun w => (Throw e, w).

Definition bind {A B} (m : M A) (k : A -> M B) : M B :=
  fun w => match m w with
           | (Ok a, w') => k a w'
           | (Throw e, w') => (Throw e, w')
           end.

Definition lift {A} (r : result A) : M A := fun w => (r, w).

Declare Scope js_scope.
Delimit Scope js_scope with js.
Notation "x <- m ;; k" := (bind m (fun x => k))
  (at level 61, m at next level, right associativity) : js_scope.
Notation "m ;; k" := (bind m (fun _ => k))
  (at level 61, right associativity) : js_scope.
Local Open Scope js_scope.

Definition parseCache_get (key : string) : M value :=
  fun w => let (v, c) := TrackedLRUCache.get string_dec key (parseCache w) in
           (Ok v, mk_world c (stringifyCache w) (warn_calls w)).

Definition parseCache_set (key : string) (v : value) : M unit :=
  fun w => (Ok tt, mk_world (TrackedLRUCache.set string_dec key v (parseCache w))
                            (stringifyCache w) (warn_calls w)).

Definition stringifyCache_get (key : string) : M value :=
  fun w => let (v, c) := TrackedLRUCache.get string_dec key (stringifyCache w) in
           (Ok v, mk_world (parseCache w) c (warn_calls w)).

Definition stringifyCache_set (key : string) (v : value) : M unit :=
  fun w => (Ok tt, mk_world (parseCache w)
                            (TrackedLRUCache.set string_dec key v (stringifyCache w))
                            (warn_calls w)).

(** [doc.warnings.forEach(warning => warn(logLevel, warning))] *)
Definition warn_all (level : string) (ws : list yaml_error) : M unit :=
  fun w => (Ok tt, mk_world (parseCache w) (stringifyCache w)
                            (warn_calls w ++ map (fun x => (level, x)) ws)).

(** ** [getCacheStats] and [clearCaches] *)

Definition getCacheStats (w : world)
  : TrackedLRUCache.stats_t * TrackedLRUCache.stats_t :=
  (TrackedLRUCache.stats (parseCache w), TrackedLRUCache.stats (stringifyCache w)).

Definition clearCaches (w : world) : world :=
  mk_world (TrackedLRUCache.clear (parseCache w))
           (TrackedLRUCache.clear (stringifyCache w)) (warn_calls w).

(** ** [parseOptions] and [parseDocument] *)

(** An instance of the engine's [LineCounter]; the adapters only test it
    for truth. *)
Definition new_LineCounter : value := VObj [("lineStarts"%string, VArr [])].

(** [parseOptions(options)]: reading a property of [null] throws *)
Definition parseOptions (options : value) : result (value * bool) :=
  if nullish options then Throw TypeError
  else
    let prettyErrors := negb (is_false (get_prop options "prettyErrors")) in
    let lineCounter :=
      or_else (or_else (get_prop options "lineCounter")
                       (if prettyErrors then new_LineCounter else VBool false))
              VNull in
    Ok (lineCounter, prettyErrors).

Definition MULTIPLE_DOCS_message : string :=
  "Source contains multiple documents; please use YAML.parseAllDocuments()".

(** [new YAMLParseError(_doc.range.slice(0, 2), 'MULTIPLE_DOCS', ...)] *)
Definition multiple_docs_error (_doc : document) : yaml_error :=
  mk_error (firstn 2 (range _doc)) "MULTIPLE_DOCS" MULTIPLE_DOCS_message.

(** [doc.errors.push(e)] *)
Definition push_error (doc : document) (e : yaml_error) : document :=
  mk_document (doc_id doc) (errors doc ++ [e]) (warnings doc) (logLevel doc)
              (range doc).

(** The [for ... of] loop over the composed documents.  [doc] is the
    variable of that name; [consumed] counts the documents taken from
    the generator so far. *)
Fixpoint parseDocument_loop (docs : list document) (doc : option document)
    (consumed : nat) : option document * nat :=
  match docs with
  | [] => (doc, consumed)
  | _doc :: rest =>
      match doc with
      | None => parseDocument_loop rest (Some _doc) (S consumed)
      | Some d =>
          if negb (String.eqb (logLevel d) "silent")
          then (Some (push_error d (multiple_docs_error _doc)), S consumed)
          else parseDocument_loop rest doc (S consumed)
      end
  end.

(** [doc.errors.forEach(prettifyError(...))], the same for the warnings *)
Definition prettify `{Engine} (source : string) (lineCounter : value)
    (doc : document) : document :=
  mk_document (doc_id doc)
              (map (prettifyError source lineCounter) (errors doc))
              (map (prettifyError source lineCounter) (warnings doc))
              (logLevel doc) (range doc).

(** [parseDocument(source, options = {})]; [None] is a [doc] left [null] *)
Definition parseDocument `{Engine} (source : string) (options : value)
  : result (option document) :=
  let options := if is_undefined options then VObj [] else options in
  match parseOptions options with
  | Throw e => Throw e
  | Ok (lineCounter, prettyErrors) =>
      let doc := fst (parseDocument_loop (compose source options) None 0) in
      if prettyErrors && truthy lineCounter
      then match doc with
           | None => Throw TypeError
           | Some d => Ok (Some (prettify source lineCounter d))
           end
      else Ok doc
  end.

(** How many documents [parseDocument] takes from the generator *)
Definition parseDocument_consumed `{Engine} (source : string) (options : value)
  : nat :=
  let options := if is_undefined options then VObj [] else options in
  snd (parseDocument_loop (compose source options) None 0).

(** What [parseDocument] does to the document it settled on: the errors
    and warnings are prettified unless [prettyErrors] is [false]. *)
Definition finished `{Engine} (source : string) (options : value) (d : document)
  : document :=
  match parseOptions options with
  | Ok (lineCounter, true) => prettify source lineCounter d
  | _ => d
  end.

(** ** [parse] *)

(** [_reviver] and [options] after the overload is resolved *)
Definition parse_reviver (reviver : value) : value :=
  if is_function reviver then reviver else VUndefined.

Definition parse_options (reviver options : value) : value :=
  if is_function reviver then options
  else if is_undefined options && truthy reviver
          && type_tag_eqb (typeof reviver) TObject
       then reviver
       else options.

(** The text that is hashed:
    [src + JSON.stringify(options || {}) + (_reviver ? 'reviver' : '')] *)
Definition parse_key_text `{Engine} (src : string) (options _reviver : value)
  : string :=
  (src ++ concat_operand (JSON_stringify (or_else options (VObj [])))
       ++ (if truthy _reviver then "reviver" else ""))%string.

Definition parse_cacheKey `{Engine} (src : string) (options _reviver : value)
  : string :=
  hashString (parse_key_text src options _reviver).

Definition clear_errors (doc : document) : document :=
  mk_document (doc_id doc) [] (warnings doc) (logLevel doc) (range doc).

(** From [const doc = parseDocument(src, options)] to the end *)
Definition parse_compute `{Engine} (src : string) (options _reviver : value)
    (cacheKey : string) : M value :=
  doc <- lift (parseDocument src options) ;;
  match doc with
  | None =>
      (if negb (truthy _reviver) then parseCache_set cacheKey VNull else ret tt) ;;
      ret VNull
  | Some doc =>
      warn_all (logLevel doc) (warnings doc) ;;
      doc <- match errors doc with
             | [] => ret doc
             | e :: _ =>
                 if negb (String.eqb (logLevel doc) "silent")
                 then throw (ThrownError e)
                 else ret (clear_errors doc)
             end ;;
      result <- lift (toJS doc _reviver options) ;;
      (if negb (truthy _reviver) then parseCache_set cacheKey result else ret tt) ;;
      ret result
  end.

Definition parse `{Engine} (src : string) (reviver options : value) : M value :=
  let _reviver := parse_reviver reviver in
  let options := parse_options reviver options in
  let cacheKey := parse_cacheKey src options _reviver in
  if negb (truthy _reviver)
  then cached <- parseCache_get cacheKey ;;
       if negb (is_undefined cached) then ret cached
       else parse_compute src options _reviver cacheKey
  else parse_compute src options _reviver cacheKey.

(** ** [stringify] *)

Definition has_replacer (replacer : value) : bool :=
  is_function replacer || Array_isArray replacer.

(** [_replacer] and [options] after the overload is resolved *)
Definition stringify_replacer (replacer : value) : value :=
  if has_replacer replacer then replacer else VNull.

Definition stringify_options (replacer options : value) : value :=
  if has_replacer replacer then options
  else if is_undefined options && truthy replacer then replacer
       else options.

(** [if (typeof options === 'string') options = options.length] *)
Definition string_to_length (options : value) : value :=
  match options with
  | VStr s => VNum (NFin (inject_Z (Z.of_nat (String.length s))))
  | _ => options
  end.

(** [if (typeof options === 'number') { const indent = Math.round(options);
    options = indent < 1 ? undefined : indent > 8 ? { indent: 8 } : { indent } }] *)
Definition number_to_indent (options : value) : value :=
  match options with
  | VNum n =>
      let indent := Math_round n in
      if Number_lt_int indent 1 then VUndefined
      else if Number_gt_int indent 8
           then VObj [("indent"%string, VNum (NFin (inject_Z 8)))]
           else VObj [("indent"%string, VNum indent)]
  | _ => options
  end.

Definition normalize_options (options : value) : value :=
  number_to_indent (string_to_length options).

(** The indent object chosen for a number that rounds to [r] *)
Definition indent_for (r : Z) : value :=
  if (r <? 1)%Z then VUndefined
  else if (8 <? r)%Z then VObj [("indent"%string, VNum (NFin (inject_Z 8)))]
       else VObj [("indent"%string, VNum (NFin (inject_Z r)))].

(** The test [canCache] *)
Definition canCache (v : value) : bool :=
  let valueType := typeof v in
  type_tag_eqb valueType TString || type_tag_eqb valueType TBoolean
  || (type_tag_eqb valueType TNumber && isFinite v && negb (Object_is_neg_zero v))
  || is_null v.

(** [hashString(JSON.stringify(value) + JSON.stringify(options || {}))] *)
Definition stringify_key_text `{Engine} (v options : value) : string :=
  (concat_operand (JSON_stringify v)
   ++ concat_operand (JSON_stringify (or_else options (VObj []))))%string.

Definition stringify_cacheKey `{Engine} (v options : value) : string :=
  hashString (stringify_key_text v options).

(** The last two statements of [stringify] *)
Definition stringify_direct `{Engine} (v _replacer options : value) : M value :=
  match v with
  | VDoc id =>
      if negb (truthy _replacer)
      then s <- lift (Document_toString id options) ;; ret (VStr s)
      else s <- lift (new_Document_toString v _replacer options) ;; ret (VStr s)
  | _ => s <- lift (new_Document_toString v _replacer options) ;; ret (VStr s)
  end.

Definition stringify `{Engine} (v replacer options : value) : M value :=
  let _replacer := stringify_replacer replacer in
  let options := normalize_options (stringify_options replacer options) in
  if is_undefined v
     && negb (truthy (get_prop (coalesce (coalesce options replacer) (VObj []))
                               "keepUndefined"))
  then ret VUndefined
  else
    if negb (truthy _replacer) && negb (isDocument v)
    then
      if canCache v
      then
        let cacheKey := stringify_cacheKey v options in
        cached <- stringifyCache_get cacheKey ;;
        if negb (is_undefined cached) then ret cached
        else
          result <- lift (new_Document_toString v _replacer options) ;;
          stringifyCache_set cacheKey (VStr result) ;;
          ret (VStr result)
      else stringify_direct v _replacer options
    else stringify_direct v _replacer options.

(** The allow-list in the words of the specification: no replacer
    function or array, not a pre-built document, and a value that is a
    string, a boolean, a finite number other than [-0], or [null]. *)
Definition spec_stringify_cacheable (v replacer : value) : bool :=
  negb (is_function replacer || Array_isArray replacer)
  && negb (isDocument v)
  && match v with
     | VStr _ | VBool _ | VNull | VNum (NFin _) => true
     | _ => false
     end.

(** How many times [get] was called on a cache since its last reset *)
Definition cache_reads (c : TrackedLRUCache.t string) : Z :=
  (TrackedLRUCache.hits c + TrackedLRUCache.misses c)%Z.

(** ** Sequences of operations on an instrumented cache *)

Module CacheOps.
Section WithKey.
Variable K : Type.
Variable K_eq_dec : forall x y : K, {x = y} + {x <> y}.

Inductive op : Type :=
| Get (k : K)
| Set_ (k : K) (v : value)
| Has (k : K)
| Clear
| ResetStats.

(** What the caller sees of one operation *)
Inductive seen : Type :=
| Returned (v : value)
| Answered (b : bool)
| Done.

Definition step (o : op) (c : TrackedLRUCache.t K) : seen * TrackedLRUCache.t K :=
  match o with
  | Get k => let (v, c') := TrackedLRUCache.get K_eq_dec k c in (Returned v, c')
  | Set_ k v => (Done, TrackedLRUCache.set K_eq_dec k v c)
  | Has k => (Answered (TrackedLRUCache.has K_eq_dec k c), c)
  | Clear => (Done, TrackedLRUCache.clear c)
  | ResetStats => (Done, TrackedLRUCache.resetStats c)
  end.

Fixpoint run (ops : list op) (c : TrackedLRUCache.t K)
  : list (op * seen) * TrackedLRUCache.t K :=
  match ops with
  | [] => ([], c)
  | o :: rest =>
      let (s, c1) := step o c in
      let (tr, c2) := run rest c1 in
      ((o, s) :: tr, c2)
  end.

(** Hits and misses as the caller counts them from the answers of [get],
    starting over at each [resetStats]: a hit is a [get] that returned
    something other than [undefined]. *)
Fixpoint tally (trace : list (op * seen)) (H M : Z) : Z * Z :=
  match trace with
  | [] => (H, M)
  | (ResetStats, _) :: tr => tally tr 0%Z 0%Z
  | (Get _, Returned v) :: tr =>
      if negb (is_undefined v) then tally tr (H + 1)%Z M else tally tr H (M + 1)%Z
  | _ :: tr => tally tr H M
  end.

(** The same operations on the plain store *)
Definition step_store (o : op) (c : LRUCache.t K) : LRUCache.t K :=
  match o with
  | Get k => snd (LRUCache.get K_eq_dec k c)
  | Set_ k v => LRUCache.set K_eq_dec k v c
  | Has _ => c
  | Clear => LRUCache.clear c
  | ResetStats => c
  end.

Definition run_store (ops : list op) (c : LRUCache.t K) : LRUCache.t K :=
  fold_left (fun c o => step_store o c) ops c.

(** The key an operation uses: [set] uses its key, [get] uses its key when
    it answers a defined value; the other operations use none. *)
Definition used_key (o : op) (c : LRUCache.t K) : option K :=
  match o with
  | Get k =>
      if negb (is_undefined (JSMap.get K_eq_dec k (LRUCache.cache c)))
      then Some k else None
  | Set_ k _ => Some k
  | _ => None
  end.

(** A clock beside the store: [stamp k] is the time of the last use of [k]. *)
Definition touch (k : K) (now : nat) (stamp : K -> nat) : K -> nat :=
  fun j => if K_eq_dec j k then now else stamp j.

Fixpoint run_stamped (ops : list op) (c : LRUCache.t K) (now : nat)
    (stamp : K -> nat) : LRUCache.t K * (K -> nat) :=
  match ops with
  | [] => (c, stamp)
  | o :: rest =>
      run_stamped rest (step_store o c) (S now)
        (match used_key o c with
         | Some k => touch k now stamp
         | None => stamp
         end)
  end.

(** Stamps grow along the list and lie in the past. *)
Definition stamped (stamp : K -> nat) (now : nat) (l : list K) : Prop :=
  StronglySorted (fun a b => stamp a < stamp b) l
  /\ Forall (fun j => stamp j < now) l.
End WithKey.
End CacheOps.

(** ** The store with a capacity that is any [number]

    The constructor takes [maxSize: number] and nothing checks that it is
    an integer; [LRUCache] above is the store at an integer capacity,
    which is what the adapters build ([new TrackedLRUCache(2000)]).  Here
    is the same class with the capacity as a [number] and the test
    [this.cache.size >= this.maxSize] as the host evaluates it. *)

Module LRUCacheNum.
Section WithKey.
Variable K : Type.
Variable K_eq_dec : forall x y : K, {x = y} + {x <> y}.

Record t : Type := mk { cache : JSMap.t K; maxSize : number }.

(** [size >= maxSize] for a size, which is a natural number: every
    comparison with [NaN] is false *)
Definition size_reaches (size : nat) (maxSize : number) : bool :=
  match maxSize with
  | NFin q => Qle_bool q (inject_Z (Z.of_nat size))
  | NNegZero | NNegInf => true
  | NNaN | NPosInf => false
  end.

(** [constructor(maxSize = 2000)] *)
Definition new (maxSize : option number) : t :=
  mk (JSMap.empty K)
     (match maxSize with Some n => n | None => NFin (inject_Z 2000) end).

(** [get(key)] *)
Definition get (key : K) (c : t) : value * t :=
  let value := JSMap.get K_eq_dec key (cache c) in
  if negb (is_undefined value)
  then (value,
        mk (JSMap.set K_eq_dec key value (JSMap.delete K_eq_dec key (cache c)))
           (maxSize c))
  else (value, c).

(** [set(key, value)] *)
Definition set (key : K) (v : value) (c : t) : t :=
  let m := cache c in
  let m1 :=
    if JSMap.has K_eq_dec key m then JSMap.delete K_eq_dec key m
    else if size_reaches (JSMap.size m) (maxSize c) then
      match JSMap.first_key m with
      | Some firstKey => JSMap.delete K_eq_dec firstKey m
      | None => m
      end
    else m in
  mk (JSMap.set K_eq_dec key v m1) (maxSize c).

(** [has(key)] *)
Definition has (key : K) (c : t) : bool := JSMap.has K_eq_dec key (cache c).

(** [clear()] *)
Definition clear (c : t) : t := mk (JSMap.empty K) (maxSize c).

(** [get size()] *)
Definition size (c : t) : nat := JSMap.size (cache c).

Definition step_store (o : CacheOps.op K) (c : t) : t :=
  match o with
  | CacheOps.Get k => snd (get k c)
  | CacheOps.Set_ k v => set k v c
  | CacheOps.Has _ => c
  | CacheOps.Clear _ => clear c
  | CacheOps.ResetStats _ => c
  end.

Definition run_store (ops : list (CacheOps.op K)) (c : t) : t :=
  fold_left (fun c o => step_store o c) ops c.

(** The integer capacity at which [set] evicts at the same sizes, if
    there is one: the capacity rounded up; none for [NaN] and
    [+Infinity], at which the test never holds. *)
Definition integer_capacity (maxSize : number) : option Z :=
  match maxSize with
  | NFin q => Some (Qceiling q)
  | NNegZero | NNegInf => Some 0%Z
  | NNaN | NPosInf => None
  end.

(** The store at an integer capacity with the same bindings *)
Definition with_capacity (z : Z) (c : t) : LRUCache.t K :=
  LRUCache.mk (cache c) z.
End WithKey.
End LRUCacheNum.

(** ** A small engine, to run the adapters on concrete calls *)

Definition newline : string := String "010"%char EmptyString.

(** Two documents, each opened by a [---] line *)
Definition two_docs_source : string :=
  ("---" ++ newline ++ "doc: 1" ++ newline ++ "---" ++ newline ++ "doc: 2" ++ newline)%string.

Definition three_docs_source : string :=
  (two_docs_source ++ "---" ++ newline ++ "doc: 3" ++ newline)%string.

(** A flow sequence that is never closed *)
Definition broken_source : string := "a: [".

Definition sample_logLevel (options : value) : string :=
  match get_prop options "logLevel" with
  | VStr level => level
  | _ => "warn"%string
  end.

Definition sample_compose (source : string) (options : value) : list document :=
  let level := sample_logLevel options in
  if String.eqb source two_docs_source
  then [mk_document 1 [] [] level [0; 11; 11]%Z;
        mk_document 2 [] [] level [11; 22; 22]%Z]
  else if String.eqb source three_docs_source
  then [mk_document 1 [] [] level [0; 11; 11]%Z;
        mk_document 2 [] [] level [11; 22; 22]%Z;
        mk_document 3 [] [] level [22; 33; 33]%Z]
  else if String.eqb source broken_source
  then [mk_document 4 [mk_error [4; 5]%Z "MISSING_CHAR" "Flow sequence must end with a ]"]
                    [] level [0; 4; 4]%Z]
  else [mk_document 0 [] [] level
          [0; Z.of_nat (String.length source); Z.of_nat (String.length source)]%Z].

Definition sample_engine : Engine :=
  {| Number_toString_other := fun _ => "0.5"%string;
     Document_JSON := fun _ => Some "{}"%string;
     compose := sample_compose;
     toJS := fun doc _ _ => Ok (VObj [("doc"%string, VNum (NFin (inject_Z (Z.of_nat (doc_id doc)))))]);
     prettifyError := fun _ _ e => e;
     new_Document_toString := fun _ _ _ => Ok ("text" ++ newline)%string;
     Document_toString := fun _ _ => Ok ("text" ++ newline)%string |}.

(** The [reviver] of [Object.assign({ reviver: _reviver }, options)],
    the options that [parse] hands to [toJS]: an own [reviver] property
    of the options replaces the reviver argument. *)
Definition merged_reviver (_reviver options : value) : value :=
  match options with
  | VObj fields =>
      if existsb (fun p => String.eqb "reviver" (fst p)) fields
      then lookup_field "reviver" fields
      else _reviver
  | _ => _reviver
  end.

(** An engine like [sample_engine] whose [toJS] marks its result when the
    merged options carry a reviver function. *)
Definition reviving_engine : Engine :=
  {| Number_toString_other := fun _ => "0.5"%string;
     Document_JSON := fun _ => Some "{}"%string;
     compose := sample_compose;
     toJS := fun doc _reviver options =>
       Ok (VObj (("doc"%string, VNum (NFin (inject_Z (Z.of_nat (doc_id doc)))))
                 :: if is_function (merged_reviver _reviver options)
                    then [("revived"%string, VBool true)] else []));
     prettifyError := fun _ _ e => e;
     new_Document_toString := fun _ _ _ => Ok ("text" ++ newline)%string;
     Document_toString := fun _ _ => Ok ("text" ++ newline)%string |}.

(** ** Definitions used to state further properties *)

Module Further.
Section WithKey.
Variable K : Type.
Variable K_eq_dec : forall x y : K, {x = y} + {x <> y}.

(** The key that [set(key, _)] removes to make room, if any: the first
    key of the map when [key] is new and the size has reached [maxSize]. *)
Definition evicted_by_set (key : K) (c : LRUCache.t K) : option K :=
  if JSMap.has K_eq_dec key (LRUCache.cache c) then None
  else if (LRUCache.maxSize c <=? Z.of_nat (JSMap.size (LRUCache.cache c)))%Z
       then JSMap.first_key (LRUCache.cache c)
       else None.

(** How many [get] calls a list of operations makes *)
Definition count_gets (ops : list (CacheOps.op K)) : Z :=
  Z.of_nat (List.length
              (filter (fun o => match o with CacheOps.Get _ => true | _ => false end) ops)).

(** Whether a list of operations calls [resetStats] *)
Definition has_reset (ops : list (CacheOps.op K)) : bool :=
  existsb (fun o => match o with CacheOps.ResetStats _ => true | _ => false end) ops.
End WithKey.
End Further.

(** The polynomial in 31 over the code units, without wrap-around *)
Fixpoint poly_hash (str : string) (acc : Z) : Z :=
  match str with
  | EmptyString => acc
  | String c rest => poly_hash rest (31 * acc + charCode c)%Z
  end.

(** ** [parseAllDocuments] *)

(** The composer used on a whole stream.  [stream_info] is what
    [composer.streamInfo()] returns. *)
Class StreamEngine : Type := {
  stream_info : Type;
  (** [composer.compose(parser.parse(source))] for [new Composer(options)]:
      every document of the stream, in order *)
  compose_all : string -> value -> list document;
  (** [composer.streamInfo()] once the stream is composed *)
  streamInfo : string -> value -> stream_info
}.

(** An array of documents, or the empty array marked [empty: true] that
    carries the stream information *)
Inductive documents `{StreamEngine} : Type :=
| Docs (docs : list document)
| EmptyStream (info : stream_info).

Definition parseAllDocuments `{Engine} `{StreamEngine} (source : string)
    (options : value) : result documents :=
  let options := if is_undefined options then VObj [] else options in
  match parseOptions options with
  | Throw e => Throw e
  | Ok (lineCounter, prettyErrors) =>
      let docs := compose_all source options in
      let docs :=
        if prettyErrors && truthy lineCounter
        then map (prettify source lineCounter) docs
        else docs in
      if 0 <? List.length docs then Ok (Docs docs)
      else Ok (EmptyStream (streamInfo source options))
  end.

(** ** Sequences of calls of the public functions *)

Inductive api_call : Type :=
| Parse (src : string) (reviver options : value)
| Stringify (v replacer options : value)
| ClearCaches.

Definition run_call `{Engine} (c : api_call) (w : world) : world :=
  match c with
  | Parse src reviver options => snd (parse src reviver options w)
  | Stringify v replacer options => snd (stringify v replacer options w)
  | ClearCaches => clearCaches w
  end.

Definition run_calls `{Engine} (calls : list api_call) (w : world) : world :=
  fold_left (fun w c => run_call c w) calls w.

(** ** The benchmark drivers, without their clocks

    The drivers time their loops and print what they measured.  The model
    keeps the calls they make on the library and the statistics they read
    at the end; durations, memory readings and console output are left
    out.  Iteration counts are integers. *)

(** [for (let i = 0; i < n; i++) body()] *)
Fixpoint repeat_call {A : Type} (n : nat) (body : M A) : M unit :=
  match n with
  | O => ret tt
  | S n' => body ;; repeat_call n' body
  end.

Definition read_stats : M (TrackedLRUCache.stats_t * TrackedLRUCache.stats_t) :=
  fun w => (Ok (getCacheStats w), w).

Definition do_clearCaches : M unit := fun w => (Ok tt, clearCaches w).

(** [benchmarkParse(sampleName, yamlContent, iterations)]: the [stats]
    field of what it returns *)
Definition benchmarkParse `{Engine} (yamlContent : string) (iterations : Z)
  : M (TrackedLRUCache.stats_t * TrackedLRUCache.stats_t) :=
  do_clearCaches ;;
  repeat_call (Z.to_nat iterations) (parse yamlContent VUndefined VUndefined) ;;
  read_stats.

(** [benchmarkCacheEffectiveness(sampleName, yamlContent, repetitions)]:
    one parse, then [repetitions - 1] more *)
Definition benchmarkCacheEffectiveness `{Engine} (yamlContent : string)
    (repetitions : Z) : M (TrackedLRUCache.stats_t * TrackedLRUCache.stats_t) :=
  do_clearCaches ;;
  parse yamlContent VUndefined VUndefined ;;
  repeat_call (Z.to_nat (repetitions - 1)) (parse yamlContent VUndefined VUndefined) ;;
  read_stats.

(** The body of the loop of [benchmarkStringify]:
    [const result = YAML.stringify(data); totalBytes += result.length];
    reading [length] of [undefined] throws *)
Definition stringify_and_measure `{Engine} (data : value) : M unit :=
  result <- stringify data VUndefined VUndefined ;;
  if nullish result then throw TypeError else ret tt.

(** [benchmarkStringify(sampleName, data, iterations)]: the [stats] field *)
Definition benchmarkStringify `{Engine} (data : value) (iterations : Z)
  : M (TrackedLRUCache.stats_t * TrackedLRUCache.stats_t) :=
  do_clearCaches ;;
  repeat_call (Z.to_nat iterations) (stringify_and_measure data) ;;
  read_stats.

(** [benchmark(name, fn, iterations)] of the second driver: ten calls to
    warm up, then the timed ones *)
Definition benchmark {A : Type} (fn : M A) (iterations : Z) : M unit :=
  repeat_call 10 fn ;;
  repeat_call (Z.to_nat iterations) fn.

(** The cacheable path of [stringify] for a value [v] and normalized
    options: look the key up, and on a miss serialize and store *)
Definition stringify_block `{Engine} (v options : value) : M value :=
  (cached <- stringifyCache_get (stringify_cacheKey v options) ;;
   if negb (is_undefined cached) then ret cached
   else
     result <- lift (new_Document_toString v VNull options) ;;
     stringifyCache_set (stringify_cacheKey v options) (VStr result) ;;
     ret (VStr result))%js.

(** A stream composer for concrete calls: the documents of
    [sample_compose], and no stream information *)
Definition sample_stream : StreamEngine :=
  {| stream_info := unit;
     compose_all := fun source options =>
       if String.eqb source EmptyString then [] else sample_compose source options;
     streamInfo := fun _ _ => tt |}.

(** The two caches of a world keep their capacity of 2000. *)
Definition world_bounded (w : world) : Prop :=
  LRUCache.bounded (TrackedLRUCache.base (parseCache w))
  /\ LRUCache.maxSize (TrackedLRUCache.base (parseCache w)) = 2000%Z
  /\ LRUCache.bounded (TrackedLRUCache.base (stringifyCache w))
  /\ LRUCache.maxSize (TrackedLRUCache.base (stringifyCache w)) = 2000%Z.

(** The world after a [get] that found nothing defined under the key *)
Definition after_miss (w : world) : world :=
  mk_world (TrackedLRUCache.mk (TrackedLRUCache.base (parseCache w))
              (TrackedLRUCache.hits (parseCache w))
              (TrackedLRUCache.misses (parseCache w) + 1))
           (stringifyCache w) (warn_calls w).

(** * Properties *)

(** ** The model on small inputs *)

Example hashString_a : hashString "a" = "2p"%string.
Proof. reflexivity. Qed.

Example hashString_ab : hashString "ab" = "2e9"%string.
Proof. reflexivity. Qed.

Example hashString_empty : hashString "" = "0"%string.
Proof. reflexivity. Qed.

(** The 32-bit wrap-around gives a negative hash here. *)
Example hashString_negative : hashString "a: 1{}" = "-o794d0"%string.
Proof. vm_compute. reflexivity. Qed.

Example JSON_stringify_options :
  @JSON_stringify sample_engine
     (VObj [("indent"%string, VNum (NFin (inject_Z 2)));
            ("sortMapEntries"%string, VFun 0);
            ("schema"%string, VStr "core");
            ("strict"%string, VBool false);
            ("tags"%string, VArr [VUndefined; VNull; VNum NNaN]);
            ("keepUndefined"%string, VUndefined)])
  = Some (String "{"%char
            (JSON_quote "indent" ++ ":2," ++ JSON_quote "schema" ++ ":"
             ++ JSON_quote "core" ++ "," ++ JSON_quote "strict" ++ ":false,"
             ++ JSON_quote "tags" ++ ":[null,null,null]}"))%string.
Proof. reflexivity. Qed.

(** Capacity 2: [a] is read before [c] arrives, so [b] is the one evicted. *)
Example eviction_after_a_read :
  let c0 := LRUCache.new string (Some 2%Z) in
  let c1 := LRUCache.set string_dec "a"%string (VNum (NFin 1%Q)) c0 in
  let c2 := LRUCache.set string_dec "b"%string (VNum (NFin 2%Q)) c1 in
  let c3 := snd (LRUCache.get string_dec "a"%string c2) in
  let c4 := LRUCache.set string_dec "c"%string (VNum (NFin 3%Q)) c3 in
  JSMap.keys (LRUCache.cache c4) = ["a"%string; "c"%string].
Proof. reflexivity. Qed.

Example stringify_bare_number :
  normalize_options (VNum (NFin (inject_Z 12)))
  = VObj [("indent"%string, VNum (NFin (inject_Z 8)))]
  /\ normalize_options (VStr "    ") = VObj [("indent"%string, VNum (NFin (inject_Z 4)))]
  /\ normalize_options (VNum (NFin (inject_Z 0))) = VUndefined
  /\ normalize_options (VStr "") = VUndefined.
Proof. repeat split. Qed.

(** ** [hashString] *)

Lemma to_int32_range (z : Z) : (- 2 ^ 31 <= to_int32 z < 2 ^ 31)%Z.
Proof.
  unfold to_int32.
  pose proof (Z.mod_pos_bound (z + 2 ^ 31) (2 ^ 32) ltac:(lia)). lia.
Qed.

Lemma to_int32_small (z : Z) : (- 2 ^ 31 <= z < 2 ^ 31)%Z -> to_int32 z = z.
Proof.
  intros Hz. unfold to_int32. rewrite Z.mod_small; lia.
Qed.

(** The hash stays a signed 32-bit integer. *)
Lemma hash_step_range (hash : Z) (c : ascii) :
  (- 2 ^ 31 <= hash_step hash c < 2 ^ 31)%Z.
Proof.
  unfold hash_step. rewrite Z.land_diag. apply to_int32_range.
Qed.

Lemma hash_loop_range (str : string) (hash : Z) :
  (- 2 ^ 31 <= hash < 2 ^ 31)%Z -> (- 2 ^ 31 <= hash_loop str hash < 2 ^ 31)%Z.
Proof.
  revert hash. induction str as [|c str IH]; intros hash Hh; simpl; auto.
  apply IH. apply hash_step_range.
Qed.

Lemma digit_value_digit36 (d : Z) : (0 <= d < 36)%Z -> digit_value (digit36 d) = d.
Proof.
  intros Hd. unfold digit_value, digit36.
  destruct (Z.ltb_spec d 10).
  - rewrite N_ascii_embedding by lia.
    rewrite Z2N.id by lia. destruct (Z.ltb_spec (48 + d) 58); lia.
  - rewrite N_ascii_embedding by lia.
    rewrite Z2N.id by lia. destruct (Z.ltb_spec (87 + d) 58); lia.
Qed.

(** The digits written in front of [acc] read back as [n]: the fuel is
    enough for every number below [2 ^ fuel]. *)
Lemma radix36_digits_value (fuel : nat) (n : Z) (acc : string) :
  (0 <= n < 2 ^ Z.of_nat fuel)%Z ->
  value36 (radix36_digits fuel n acc) 0 = value36 acc n.
Proof.
  revert n acc. induction fuel as [|fuel IH]; intros n acc Hn.
  - simpl in *. now replace n with 0%Z by lia.
  - cbn [radix36_digits]. cbv zeta.
    pose proof (Z.mod_pos_bound n 36 ltac:(lia)) as Hmod.
    pose proof (Z.div_mod n 36 ltac:(lia)) as Hdiv.
    destruct (Z.eqb_spec (n / 36) 0) as [Hz|Hnz].
    + cbn [value36]. rewrite digit_value_digit36 by lia. f_equal. lia.
    + rewrite IH.
      * cbn [value36]. rewrite digit_value_digit36 by lia. f_equal. lia.
      * rewrite Nat2Z.inj_succ, Z.pow_succ_r in Hn by lia.
        split; [apply Z.div_pos; lia |].
        apply Z.div_lt_upper_bound; lia.
Qed.

(** [toString(36)] writes a number that reads back as itself, with a
    leading minus sign for a negative one. *)
Lemma Number_toString36_value (n : Z) :
  (0 <= n)%Z -> value36 (Number_toString36 n) 0 = n.
Proof.
  intros Hn. unfold Number_toString36.
  destruct (Z.ltb_spec n 0); [lia |].
  rewrite radix36_digits_value; [reflexivity |].
  rewrite Z.abs_eq by lia. split; [exact Hn |].
  rewrite Nat2Z.inj_succ, Z2Nat.id by apply Z.log2_nonneg.
  destruct (Z.eq_dec n 0) as [->|Hnz]; [reflexivity |].
  apply Z.log2_spec. lia.
Qed.

Lemma Number_toString36_negative (n : Z) :
  (n < 0)%Z -> Number_toString36 n = String "-"%char (Number_toString36 (- n)).
Proof.
  intros Hn. unfold Number_toString36.
  destruct (Z.ltb_spec n 0); [| lia].
  destruct (Z.ltb_spec (- n) 0); [lia |].
  now rewrite Z.abs_opp.
Qed.

(** ** The insertion-ordered map *)

Module JSMapFacts.
Section WithKey.
Variable K : Type.
Variable K_eq_dec : forall x y : K, {x = y} + {x <> y}.

Local Abbreviation get := (JSMap.get K_eq_dec).
Local Abbreviation has := (JSMap.has K_eq_dec).
Local Abbreviation delete := (JSMap.delete K_eq_dec).
Local Abbreviation set := (JSMap.set K_eq_dec).
Local Abbreviation keys := (@JSMap.keys K).
Local Abbreviation wf := (@JSMap.wf K).
Local Abbreviation size := (@JSMap.size K).

Lemma has_In (k : K) (m : JSMap.t K) : has k m = true <-> In k (keys m).
Proof.
  induction m as [|[k' v'] m IH]; simpl.
  - split; [discriminate | tauto].
  - destruct (K_eq_dec k k') as [->|Hne].
    + split; auto.
    + rewrite IH. split; [auto | intros [Heq|Hin]; [congruence | exact Hin]].
Qed.

Lemma has_false_not_In (k : K) (m : JSMap.t K) :
  has k m = false <-> ~ In k (keys m).
Proof.
  rewrite <- has_In. destruct (has k m); split; congruence.
Qed.

Lemma get_absent (k : K) (m : JSMap.t K) : has k m = false -> get k m = VUndefined.
Proof.
  induction m as [|[k' v'] m IH]; simpl; auto.
  destruct (K_eq_dec k k'); [discriminate | exact IH].
Qed.

Lemma delete_absent (k : K) (m : JSMap.t K) : has k m = false -> delete k m = m.
Proof.
  induction m as [|[k' v'] m IH]; simpl; auto.
  destruct (K_eq_dec k k'); [discriminate |].
  intros Hm. unfold JSMap.delete in *. now rewrite IH.
Qed.

Lemma In_keys_delete (j k : K) (m : JSMap.t K) :
  In j (keys (delete k m)) <-> In j (keys m) /\ j <> k.
Proof.
  induction m as [|[k' v'] m IH]; simpl.
  - tauto.
  - destruct (K_eq_dec k k') as [->|Hne]; simpl; rewrite IH.
    + split; [tauto | intros [[Heq|Hin] Hj]; [congruence | tauto]].
    + split; [intros [Heq|[Hin Hj]]; [subst; split; auto | tauto] | tauto].
Qed.

Lemma has_delete_same (k : K) (m : JSMap.t K) : has k (delete k m) = false.
Proof.
  apply has_false_not_In. rewrite In_keys_delete. tauto.
Qed.

Lemma has_delete_other (j k : K) (m : JSMap.t K) :
  j <> k -> has j (delete k m) = has j m.
Proof.
  intros Hne. destruct (has j m) eqn:Hj.
  - apply has_In. apply In_keys_delete. split; [now apply has_In | exact Hne].
  - apply has_false_not_In. rewrite In_keys_delete.
    apply has_false_not_In in Hj. tauto.
Qed.

Lemma set_absent (k : K) (v : value) (m : JSMap.t K) :
  has k m = false -> set k v m = m ++ [(k, v)].
Proof.
  induction m as [|[k' v'] m IH]; simpl; auto.
  destruct (K_eq_dec k k'); [discriminate |].
  intros Hm. now rewrite IH.
Qed.

Lemma get_set_same (k : K) (v : value) (m : JSMap.t K) : get k (set k v m) = v.
Proof.
  induction m as [|[k' v'] m IH]; simpl.
  - now destruct (K_eq_dec k k).
  - destruct (K_eq_dec k k') as [->|Hne]; simpl.
    + now destruct (K_eq_dec k' k').
    + destruct (K_eq_dec k k'); [contradiction | exact IH].
Qed.

Lemma has_set_same (k : K) (v : value) (m : JSMap.t K) : has k (set k v m) = true.
Proof.
  induction m as [|[k' v'] m IH]; simpl.
  - now destruct (K_eq_dec k k).
  - destruct (K_eq_dec k k') as [->|Hne]; simpl.
    + now destruct (K_eq_dec k' k').
    + destruct (K_eq_dec k k'); [contradiction | exact IH].
Qed.

Lemma wf_delete (k : K) (m : JSMap.t K) : wf m -> wf (delete k m).
Proof.
  unfold JSMap.wf. induction m as [|[k' v'] m IH]; simpl; intros Hwf.
  - constructor.
  - inversion Hwf as [|? ? Hnin Hnd]; subst.
    destruct (K_eq_dec k k'); simpl; auto.
    constructor; auto.
    intros Hin. apply Hnin. apply (In_keys_delete k' k m) in Hin. tauto.
Qed.

Lemma keys_app (m1 m2 : JSMap.t K) : keys (m1 ++ m2) = keys m1 ++ keys m2.
Proof. unfold JSMap.keys. apply map_app. Qed.

Lemma wf_snoc (k : K) (v : value) (m : JSMap.t K) :
  wf m -> has k m = false -> wf (m ++ [(k, v)]).
Proof.
  unfold JSMap.wf. intros Hwf Hk. rewrite keys_app. simpl.
  apply has_false_not_In in Hk.
  induction m as [|[k' v'] m IH]; simpl in *.
  - constructor; [tauto | constructor].
  - inversion Hwf as [|? ? Hnin Hnd]; subst. constructor.
    + rewrite in_app_iff. simpl. intros [Hin|[Heq|[]]]; [tauto | subst; tauto].
    + apply IH; tauto.
Qed.

Lemma size_delete_present (k : K) (m : JSMap.t K) :
  wf m -> has k m = true -> S (size (delete k m)) = size m.
Proof.
  unfold JSMap.wf, JSMap.size. induction m as [|[k' v'] m IH]; simpl.
  - discriminate.
  - intros Hwf Hk. inversion Hwf as [|? ? Hnin Hnd]; subst.
    destruct (K_eq_dec k k') as [->|Hne]; simpl.
    + f_equal. f_equal. apply delete_absent. now apply has_false_not_In.
    + f_equal. now apply IH.
Qed.

Lemma delete_head (k : K) (v : value) (m : JSMap.t K) :
  wf ((k, v) :: m) -> delete k ((k, v) :: m) = m.
Proof.
  unfold JSMap.wf. simpl. intros Hwf. inversion Hwf as [|? ? Hnin Hnd]; subst.
  destruct (K_eq_dec k k); [| contradiction].
  apply delete_absent. now apply has_false_not_In.
Qed.
End WithKey.
End JSMapFacts.

(** ** The bounded store *)

Module LRUFacts.
Section WithKey.
Variable K : Type.
Variable K_eq_dec : forall x y : K, {x = y} + {x <> y}.

Import LRUCache.
Local Abbreviation get := (LRUCache.get K_eq_dec).
Local Abbreviation set := (LRUCache.set K_eq_dec).
Local Abbreviation has := (LRUCache.has K_eq_dec).
Local Abbreviation mdelete := (JSMap.delete K_eq_dec).
Local Abbreviation mget := (JSMap.get K_eq_dec).
Local Abbreviation mhas := (JSMap.has K_eq_dec).

(** A key that is bound moves to the end; nothing else changes. *)
Lemma set_existing (k : K) (v : value) (c : LRUCache.t K) :
  has k c = true ->
  cache (set k v c) = mdelete k (cache c) ++ [(k, v)]
  /\ maxSize (set k v c) = maxSize c.
Proof.
  unfold LRUCache.has, LRUCache.set. intros Hk. rewrite Hk. simpl. split; auto.
  apply JSMapFacts.set_absent. apply JSMapFacts.has_delete_same.
Qed.

Lemma set_existing_size (k : K) (v : value) (c : LRUCache.t K) :
  JSMap.wf (cache c) -> has k c = true -> size (set k v c) = size c.
Proof.
  intros Hwf Hk. unfold LRUCache.size.
  destruct (set_existing k v c Hk) as [-> _].
  unfold JSMap.size. rewrite length_app. simpl.
  pose proof (JSMapFacts.size_delete_present K_eq_dec k Hwf Hk) as Hs.
  unfold JSMap.size in Hs. lia.
Qed.

(** A new key below capacity is appended. *)
Lemma set_new_with_room (k : K) (v : value) (c : LRUCache.t K) :
  has k c = false -> (Z.of_nat (size c) < maxSize c)%Z ->
  cache (set k v c) = cache c ++ [(k, v)].
Proof.
  unfold LRUCache.has, LRUCache.set, LRUCache.size. intros Hk Hroom.
  rewrite Hk. simpl.
  destruct (Z.leb_spec (maxSize c) (Z.of_nat (JSMap.size (cache c)))); [lia |].
  now apply JSMapFacts.set_absent.
Qed.

(** A new key at capacity: the first binding of the map goes, and only it. *)
Lemma set_new_at_capacity (k k0 : K) (v v0 : value) (rest : JSMap.t K)
    (c : LRUCache.t K) :
  JSMap.wf (cache c) -> has k c = false ->
  (maxSize c <= Z.of_nat (size c))%Z -> cache c = (k0, v0) :: rest ->
  cache (set k v c) = rest ++ [(k, v)].
Proof.
  unfold LRUCache.has, LRUCache.set, LRUCache.size. intros Hwf Hk Hfull Hc.
  rewrite Hk. simpl.
  destruct (Z.leb_spec (maxSize c) (Z.of_nat (JSMap.size (cache c)))); [| lia].
  rewrite Hc in *. simpl JSMap.first_key. cbv iota beta.
  rewrite (JSMapFacts.delete_head K_eq_dec Hwf).
  apply JSMapFacts.set_absent.
  simpl in Hk. destruct (K_eq_dec k k0); [discriminate | exact Hk].
Qed.

(** With nothing to evict the new binding is added all the same. *)
Lemma set_new_nothing_to_evict (k : K) (v : value) (c : LRUCache.t K) :
  cache c = [] -> cache (set k v c) = [(k, v)].
Proof.
  unfold LRUCache.set. intros ->. simpl.
  now destruct (maxSize c <=? _)%Z.
Qed.

Lemma get_defined (k : K) (c : LRUCache.t K) :
  is_undefined (mget k (cache c)) = false ->
  get k c = (mget k (cache c),
             LRUCache.mk (mdelete k (cache c) ++ [(k, mget k (cache c))]) (maxSize c)).
Proof.
  unfold LRUCache.get. intros ->. simpl. f_equal. f_equal.
  apply JSMapFacts.set_absent. apply JSMapFacts.has_delete_same.
Qed.

Lemma get_undefined (k : K) (c : LRUCache.t K) :
  is_undefined (mget k (cache c)) = true -> get k c = (VUndefined, c).
Proof.
  unfold LRUCache.get. intros Hu. rewrite Hu. simpl.
  destruct (mget k (cache c)); try discriminate. reflexivity.
Qed.

Lemma defined_has (k : K) (m : JSMap.t K) :
  is_undefined (mget k m) = false -> mhas k m = true.
Proof.
  intros Hd. destruct (mhas k m) eqn:Hk; auto.
  now rewrite (JSMapFacts.get_absent K_eq_dec k m Hk) in Hd.
Qed.

Lemma wf_set (k : K) (v : value) (c : LRUCache.t K) :
  JSMap.wf (cache c) -> JSMap.wf (cache (set k v c)).
Proof.
  intros Hwf. destruct (has k c) eqn:Hk.
  - destruct (set_existing k v c Hk) as [-> _].
    apply (JSMapFacts.wf_snoc K_eq_dec); [now apply JSMapFacts.wf_delete |].
    apply JSMapFacts.has_delete_same.
  - unfold LRUCache.set. unfold LRUCache.has in Hk. rewrite Hk. simpl.
    destruct (maxSize c <=? Z.of_nat (JSMap.size (cache c)))%Z.
    + destruct (JSMap.first_key (cache c)) as [k0|] eqn:Hfirst.
      * assert (Hk' : mhas k (mdelete k0 (cache c)) = false).
        { destruct (K_eq_dec k k0) as [->|Hne];
            [apply JSMapFacts.has_delete_same |].
          rewrite JSMapFacts.has_delete_other; auto. }
        rewrite (JSMapFacts.set_absent K_eq_dec k v _ Hk').
        apply (JSMapFacts.wf_snoc K_eq_dec); [now apply JSMapFacts.wf_delete | exact Hk'].
      * rewrite (JSMapFacts.set_absent K_eq_dec k v _ Hk).
        now apply (JSMapFacts.wf_snoc K_eq_dec).
    + rewrite (JSMapFacts.set_absent K_eq_dec k v _ Hk).
      now apply (JSMapFacts.wf_snoc K_eq_dec).
Qed.

Lemma wf_get (k : K) (c : LRUCache.t K) :
  JSMap.wf (cache c) -> JSMap.wf (cache (snd (get k c))).
Proof.
  intros Hwf. destruct (is_undefined (mget k (cache c))) eqn:Hu.
  - now rewrite (get_undefined k c Hu).
  - rewrite (get_defined k c Hu). simpl.
    apply (JSMapFacts.wf_snoc K_eq_dec); [now apply JSMapFacts.wf_delete |].
    apply JSMapFacts.has_delete_same.
Qed.

Lemma size_get (k : K) (c : LRUCache.t K) :
  JSMap.wf (cache c) -> size (snd (get k c)) = size c.
Proof.
  intros Hwf. destruct (is_undefined (mget k (cache c))) eqn:Hu.
  - now rewrite (get_undefined k c Hu).
  - rewrite (get_defined k c Hu). unfold LRUCache.size, JSMap.size. simpl.
    rewrite length_app. simpl.
    pose proof (JSMapFacts.size_delete_present K_eq_dec k Hwf (defined_has k _ Hu)) as Hs.
    unfold JSMap.size in Hs. lia.
Qed.

Lemma maxSize_get (k : K) (c : LRUCache.t K) : maxSize (snd (get k c)) = maxSize c.
Proof. unfold LRUCache.get. now destruct (negb _). Qed.

(** [set] never makes the store larger than [max size capacity], as long
    as the capacity leaves room for one binding. *)
Lemma size_set_bound (k : K) (v : value) (c : LRUCache.t K) :
  (1 <= maxSize c)%Z -> bounded c -> (Z.of_nat (size (set k v c)) <= maxSize c)%Z.
Proof.
  intros Hcap [Hwf Hsize]. destruct (has k c) eqn:Hk.
  - now rewrite set_existing_size.
  - destruct (Z.lt_ge_cases (Z.of_nat (size c)) (maxSize c)) as [Hroom|Hfull].
    + unfold LRUCache.size. rewrite (set_new_with_room k v c Hk Hroom).
      unfold JSMap.size. rewrite length_app. simpl.
      unfold LRUCache.size, JSMap.size in Hroom. lia.
    + destruct (cache c) as [|[k0 v0] rest] eqn:Hc.
      * unfold LRUCache.size. rewrite (set_new_nothing_to_evict k v c Hc).
        simpl. lia.
      * rewrite <- Hc in Hwf. unfold LRUCache.size.
        rewrite (@set_new_at_capacity k k0 v v0 rest c Hwf Hk Hfull Hc).
        unfold LRUCache.size, JSMap.size in Hsize. rewrite Hc in Hsize.
        unfold JSMap.size. rewrite length_app. simpl in *. lia.
Qed.

Lemma bounded_step (o : CacheOps.op K) (c : LRUCache.t K) :
  (1 <= maxSize c)%Z -> bounded c ->
  bounded (CacheOps.step_store K_eq_dec o c)
  /\ maxSize (CacheOps.step_store K_eq_dec o c) = maxSize c.
Proof.
  intros Hcap Hb. destruct o as [k|k v|k| |]; simpl.
  - destruct Hb as [Hwf Hsize]. split; [split |].
    + now apply wf_get.
    + rewrite size_get, maxSize_get; auto.
    + apply maxSize_get.
  - split; [split |].
    + apply wf_set. apply Hb.
    + simpl. now apply size_set_bound.
    + reflexivity.
  - auto.
  - split; [split |]; simpl; auto; [constructor | lia].
  - auto.
Qed.

Lemma bounded_run (ops : list (CacheOps.op K)) (c : LRUCache.t K) :
  (1 <= maxSize c)%Z -> bounded c ->
  bounded (CacheOps.run_store K_eq_dec ops c)
  /\ maxSize (CacheOps.run_store K_eq_dec ops c) = maxSize c.
Proof.
  unfold CacheOps.run_store. revert c.
  induction ops as [|o ops IH]; simpl; intros c Hcap Hb; auto.
  destruct (bounded_step o Hcap Hb) as [Hb' Hm].
  destruct (IH (CacheOps.step_store K_eq_dec o c)) as [Hb2 Hm2]; auto; [lia |].
  split; [exact Hb2 | congruence].
Qed.

(** Capacity at least one: whatever the operations, a store that starts
    empty never holds more bindings than its capacity. *)
Theorem size_le_capacity (n : Z) (ops : list (CacheOps.op K)) :
  (1 <= n)%Z ->
  (Z.of_nat (size (CacheOps.run_store K_eq_dec ops (LRUCache.new K (Some n)))) <= n)%Z.
Proof.
  intros Hn.
  destruct (@bounded_run ops (LRUCache.new K (Some n))) as [[_ Hs] Hm]; simpl; auto.
  - split; simpl; [constructor | lia].
  - simpl in Hm. rewrite Hm in Hs. exact Hs.
Qed.

(** *** The order of the bindings is the order of last use *)

Lemma keys_delete (k : K) (m : JSMap.t K) :
  JSMap.keys (mdelete k m)
  = filter (fun j => if K_eq_dec k j then false else true) (JSMap.keys m).
Proof.
  induction m as [|[k' v'] m IH]; simpl; auto.
  destruct (K_eq_dec k k'); simpl; congruence.
Qed.

Lemma stamped_filter (f : K -> bool) (stamp : K -> nat) (now : nat) (l : list K) :
  CacheOps.stamped stamp now l -> CacheOps.stamped stamp now (filter f l).
Proof.
  unfold CacheOps.stamped. induction l as [|a l IH]; simpl; intros [Hs Hn]; auto.
  apply StronglySorted_inv in Hs. destruct Hs as [Hs Ha].
  inversion Hn as [|? ? Hna Hnl]; subst.
  destruct (IH (conj Hs Hnl)) as [IHs IHn].
  destruct (f a); [| now split].
  split; constructor; auto.
  rewrite Forall_forall in *. intros j Hj. apply Ha.
  now apply filter_In in Hj.
Qed.

Lemma stamped_later (stamp : K -> nat) (now : nat) (l : list K) :
  CacheOps.stamped stamp now l -> CacheOps.stamped stamp (S now) l.
Proof.
  unfold CacheOps.stamped. intros [Hs Hn]. split; auto.
  rewrite Forall_forall in *. intros j Hj. specialize (Hn j Hj). lia.
Qed.

Lemma stamped_touch_snoc (k : K) (stamp : K -> nat) (now : nat) (l : list K) :
  CacheOps.stamped stamp now l -> ~ In k l ->
  CacheOps.stamped (CacheOps.touch K_eq_dec k now stamp) (S now) (l ++ [k]).
Proof.
  unfold CacheOps.stamped, CacheOps.touch.
  induction l as [|a l IH]; simpl; intros [Hs Hn] Hk.
  - split; [repeat constructor | constructor; [| constructor]].
    destruct (K_eq_dec k k); [lia | contradiction].
  - apply StronglySorted_inv in Hs. destruct Hs as [Hs Ha].
    inversion Hn as [|? ? Hna Hnl]; subst.
    destruct IH as [IHs IHn]; [now split | tauto |].
    assert (Hak : a <> k) by (intros ->; tauto).
    split; constructor; auto.
    + rewrite Forall_forall in *. intros j Hj.
      destruct (K_eq_dec a k); [contradiction |].
      apply in_app_iff in Hj. destruct Hj as [Hj|[<-|[]]].
      * destruct (K_eq_dec j k) as [->|_]; [tauto | now apply Ha].
      * destruct (K_eq_dec k k); [exact Hna | contradiction].
    + destruct (K_eq_dec a k); [contradiction | lia].
Qed.

Lemma keys_after_get (k : K) (c : LRUCache.t K) :
  is_undefined (mget k (cache c)) = false ->
  JSMap.keys (cache (snd (get k c)))
  = filter (fun j => if K_eq_dec k j then false else true) (JSMap.keys (cache c)) ++ [k].
Proof.
  intros Hu. rewrite (get_defined k c Hu). simpl.
  now rewrite JSMapFacts.keys_app, keys_delete.
Qed.

(** [set] keeps some of the keys, in their order, and puts its key last. *)
Lemma keys_after_set (k : K) (v : value) (c : LRUCache.t K) :
  exists f : K -> bool,
    JSMap.keys (cache (set k v c)) = filter f (JSMap.keys (cache c)) ++ [k]
    /\ ~ In k (filter f (JSMap.keys (cache c))).
Proof.
  unfold LRUCache.set.
  set (m1 := if mhas k (cache c) then mdelete k (cache c)
             else if (maxSize c <=? Z.of_nat (JSMap.size (cache c)))%Z
                  then match JSMap.first_key (cache c) with
                       | Some firstKey => mdelete firstKey (cache c)
                       | None => cache c
                       end
                  else cache c).
  assert (Hshape : exists f : K -> bool,
             JSMap.keys m1 = filter f (JSMap.keys (cache c)) /\ mhas k m1 = false).
  { unfold m1. destruct (mhas k (cache c)) eqn:Hk.
    - eexists. split; [apply keys_delete | apply JSMapFacts.has_delete_same].
    - destruct (maxSize c <=? _)%Z;
        [destruct (JSMap.first_key (cache c)) as [k0|] |].
      + eexists. split; [apply keys_delete |].
        destruct (K_eq_dec k k0) as [->|Hne];
          [apply JSMapFacts.has_delete_same |].
        now rewrite JSMapFacts.has_delete_other.
      + exists (fun _ => true). now rewrite filter_true.
      + exists (fun _ => true). now rewrite filter_true. }
  destruct Hshape as (f & Hkeys & Hk). exists f. simpl.
  rewrite (JSMapFacts.set_absent K_eq_dec k v m1 Hk), JSMapFacts.keys_app, Hkeys.
  split; [reflexivity |].
  rewrite <- Hkeys. now apply (JSMapFacts.has_false_not_In K_eq_dec).
Qed.

Lemma stamped_step (o : CacheOps.op K) (c : LRUCache.t K) (now : nat)
    (stamp : K -> nat) :
  CacheOps.stamped stamp now (JSMap.keys (cache c)) ->
  CacheOps.stamped (match CacheOps.used_key K_eq_dec o c with
           | Some k => CacheOps.touch K_eq_dec k now stamp
           | None => stamp
           end) (S now)
          (JSMap.keys (cache (CacheOps.step_store K_eq_dec o c))).
Proof.
  intros Hst.
  destruct o as [k|k v|k| |]; unfold CacheOps.step_store, CacheOps.used_key.
  - destruct (is_undefined (mget k (cache c))) eqn:Hu; simpl negb; cbv iota.
    + rewrite (get_undefined k c Hu). now apply stamped_later.
    + rewrite (keys_after_get k c Hu).
      apply stamped_touch_snoc; [now apply stamped_filter |].
      rewrite filter_In. intros [_ Hf]. now destruct (K_eq_dec k k).
  - destruct (keys_after_set k v c) as (f & -> & Hk).
    apply stamped_touch_snoc; [now apply stamped_filter | exact Hk].
  - now apply stamped_later.
  - split; constructor.
  - now apply stamped_later.
Qed.

Lemma stamped_run (ops : list (CacheOps.op K)) (c : LRUCache.t K) (now : nat)
    (stamp : K -> nat) :
  CacheOps.stamped stamp now (JSMap.keys (cache c)) ->
  exists later : nat,
    CacheOps.stamped (snd (CacheOps.run_stamped K_eq_dec ops c now stamp)) later
            (JSMap.keys (cache (fst (CacheOps.run_stamped K_eq_dec ops c now stamp)))).
Proof.
  revert c now stamp. induction ops as [|o ops IH]; intros c now stamp Hst; simpl.
  - now exists now.
  - apply IH. now apply stamped_step.
Qed.

Lemma run_stamped_store (ops : list (CacheOps.op K)) (c : LRUCache.t K) (now : nat)
    (stamp : K -> nat) :
  fst (CacheOps.run_stamped K_eq_dec ops c now stamp) = CacheOps.run_store K_eq_dec ops c.
Proof.
  unfold CacheOps.run_store. revert c now stamp.
  induction ops as [|o ops IH]; intros c now stamp; simpl; auto.
Qed.

(** After any operations on a store that starts empty, the bindings are
    in the order of their last use: the first binding, the one [set]
    evicts at capacity, is the least recently used, and every other key
    was used after it. *)
Theorem first_key_least_recently_used (ops : list (CacheOps.op K)) (n : option Z)
    (k0 : K) (v0 : value) (rest : JSMap.t K) :
  let final := CacheOps.run_stamped K_eq_dec ops (LRUCache.new K n) 1 (fun _ => 0) in
  cache (fst final) = (k0, v0) :: rest ->
  Forall (fun j => snd final k0 < snd final j) (JSMap.keys rest).
Proof.
  cbv zeta. intros Hc.
  destruct (@stamped_run ops (LRUCache.new K n) 1 (fun _ => 0)) as (later & Hs & _).
  - split; constructor.
  - rewrite Hc in Hs. simpl in Hs. now apply StronglySorted_inv in Hs.
Qed.
End WithKey.
End LRUFacts.

(** ** The instrumented cache *)

Module TrackedFacts.
Section WithKey.
Variable K : Type.
Variable K_eq_dec : forall x y : K, {x = y} + {x <> y}.

Import TrackedLRUCache.

Lemma tracked_get_undefined (k : K) (c : TrackedLRUCache.t K) :
  is_undefined (JSMap.get K_eq_dec k (LRUCache.cache (base c))) = true ->
  TrackedLRUCache.get K_eq_dec k c
  = (VUndefined, TrackedLRUCache.mk (base c) (hits c) (misses c + 1)).
Proof.
  intros Hu. unfold TrackedLRUCache.get.
  now rewrite (LRUFacts.get_undefined K_eq_dec k (base c) Hu).
Qed.

Lemma tracked_get_defined (k : K) (c : TrackedLRUCache.t K) :
  is_undefined (JSMap.get K_eq_dec k (LRUCache.cache (base c))) = false ->
  TrackedLRUCache.get K_eq_dec k c
  = (JSMap.get K_eq_dec k (LRUCache.cache (base c)),
     TrackedLRUCache.mk (snd (LRUCache.get K_eq_dec k (base c)))
                        (hits c + 1) (misses c)).
Proof.
  intros Hu. unfold TrackedLRUCache.get.
  rewrite (LRUFacts.get_defined K_eq_dec k (base c) Hu). simpl. now rewrite Hu.
Qed.

(** After [set(k, v)] the key reads [v]. *)
Lemma get_after_set (k : K) (v : value) (c : TrackedLRUCache.t K) :
  JSMap.get K_eq_dec k (LRUCache.cache (base (TrackedLRUCache.set K_eq_dec k v c))) = v.
Proof. simpl. apply JSMapFacts.get_set_same. Qed.

(** After a [get] that returned a defined value the key still reads it. *)
Lemma get_after_get (k : K) (c : TrackedLRUCache.t K) :
  is_undefined (JSMap.get K_eq_dec k (LRUCache.cache (base c))) = false ->
  JSMap.get K_eq_dec k
    (LRUCache.cache (base (snd (TrackedLRUCache.get K_eq_dec k c))))
  = JSMap.get K_eq_dec k (LRUCache.cache (base c)).
Proof.
  intros Hu. rewrite (tracked_get_defined k c Hu). simpl.
  unfold LRUCache.get. rewrite Hu. simpl. apply JSMapFacts.get_set_same.
Qed.

(** The counters follow the answers of [get]. *)
Lemma counters_follow_answers (ops : list (CacheOps.op K)) (c : TrackedLRUCache.t K) :
  CacheOps.tally (fst (CacheOps.run K_eq_dec ops c)) (hits c) (misses c)
  = (hits (snd (CacheOps.run K_eq_dec ops c)),
     misses (snd (CacheOps.run K_eq_dec ops c))).
Proof.
  revert c. induction ops as [|o ops IH]; intros c; simpl; auto.
  destruct (CacheOps.step K_eq_dec o c) as [s c1] eqn:Hstep.
  specialize (IH c1).
  destruct (CacheOps.run K_eq_dec ops c1) as [tr c2] eqn:Hrun. simpl in *.
  destruct o as [k|k v|k| |]; simpl in Hstep.
  - unfold TrackedLRUCache.get in Hstep.
    destruct (LRUCache.get K_eq_dec k (base c)) as [v b].
    destruct (negb (is_undefined v)) eqn:Hv;
      inversion Hstep; subst; simpl in *; rewrite Hv; exact IH.
  - inversion Hstep; subst; exact IH.
  - inversion Hstep; subst; exact IH.
  - inversion Hstep; subst; exact IH.
  - inversion Hstep; subst; exact IH.
Qed.

Lemma tally_nonneg (trace : list (CacheOps.op K * CacheOps.seen)) (H M : Z) :
  (0 <= H)%Z -> (0 <= M)%Z ->
  (0 <= fst (CacheOps.tally trace H M))%Z /\ (0 <= snd (CacheOps.tally trace H M))%Z.
Proof.
  revert H M. induction trace as [|[o s] tr IH]; intros H M HH HM; simpl; auto.
  destruct o; try (apply IH; lia).
  destruct s; try (apply IH; lia).
  destruct (negb (is_undefined v)); apply IH; lia.
Qed.
End WithKey.
End TrackedFacts.

(** * The claims *)

(** C2, at a store built with capacity 0: the first [set] finds nothing
    to evict and still adds its binding, so the store holds one entry and
    its size exceeds its capacity. *)
Theorem C2_capacity_zero_holds_an_entry :
  let c := LRUCache.set string_dec "a"%string (VNum (NFin 1%Q)) (LRUCache.new string (Some 0%Z)) in
  LRUCache.size c = 1
  /\ LRUCache.maxSize c = 0%Z
  /\ ~ (Z.of_nat (LRUCache.size c) <= LRUCache.maxSize c)%Z.
Proof.
  cbv zeta. split; [reflexivity | split; [reflexivity |]].
  vm_compute. intros Hle. now apply Hle.
Qed.

(** C7: run any operations on an instrumented cache whose statistics were
    just reset, and let H and M be the numbers of [get] calls that
    answered a defined value, respectively [undefined], since the last
    [resetStats].  Then [stats] is exactly [{hits: H, misses: M, hitRate,
    size}] with [size] the number of stored bindings and [hitRate] equal
    to 0 when H and M are both zero and to the quotient H/(H+M) otherwise. *)
Theorem C7_stats_snapshot (K : Type) (K_eq_dec : forall x y : K, {x = y} + {x <> y})
    (ops : list (CacheOps.op K)) (c0 : TrackedLRUCache.t K) :
  let start := TrackedLRUCache.resetStats c0 in
  let trace := fst (CacheOps.run K_eq_dec ops start) in
  let c := snd (CacheOps.run K_eq_dec ops start) in
  let H := fst (CacheOps.tally trace 0 0) in
  let M := snd (CacheOps.tally trace 0 0) in
  TrackedLRUCache.stats c
  = TrackedLRUCache.mk_stats H M
      (if (H =? 0)%Z && (M =? 0)%Z then 0%Q
       else (inject_Z H / inject_Z (H + M))%Q)
      (List.length (LRUCache.cache (TrackedLRUCache.base c))).
Proof.
  cbv zeta.
  pose proof (TrackedFacts.counters_follow_answers K_eq_dec ops
                (TrackedLRUCache.resetStats c0)) as Hc.
  simpl TrackedLRUCache.hits in Hc. simpl TrackedLRUCache.misses in Hc.
  pose proof (@TrackedFacts.tally_nonneg K
                (fst (CacheOps.run K_eq_dec ops (TrackedLRUCache.resetStats c0)))
                0%Z 0%Z (Z.le_refl 0) (Z.le_refl 0)) as [HH HM].
  rewrite Hc in *. simpl fst in *. simpl snd in *.
  unfold TrackedLRUCache.stats, TrackedLRUCache.hitRate. f_equal.
  set (c := snd (CacheOps.run K_eq_dec ops (TrackedLRUCache.resetStats c0))) in *.
  destruct (Z.eqb_spec (TrackedLRUCache.hits c + TrackedLRUCache.misses c) 0) as [Hz|Hnz].
  - assert (TrackedLRUCache.hits c = 0%Z) as -> by lia.
    assert (TrackedLRUCache.misses c = 0%Z) as -> by lia. reflexivity.
  - destruct (Z.eqb_spec (TrackedLRUCache.hits c) 0) as [Hh|Hh];
      destruct (Z.eqb_spec (TrackedLRUCache.misses c) 0) as [Hm|Hm];
      simpl; auto. lia.
Qed.

(** C9: [clearCaches] empties both stores and keeps the four counters;
    [resetStats] zeroes the two counters of a cache and keeps its store,
    hence its size; the two commute. *)
Theorem C9_clear_and_reset_are_independent (w : world) (c : TrackedLRUCache.t string) :
  (LRUCache.cache (TrackedLRUCache.base (parseCache (clearCaches w))) = []
   /\ LRUCache.cache (TrackedLRUCache.base (stringifyCache (clearCaches w))) = []
   /\ TrackedLRUCache.size (parseCache (clearCaches w)) = 0
   /\ TrackedLRUCache.size (stringifyCache (clearCaches w)) = 0
   /\ TrackedLRUCache.hits (parseCache (clearCaches w)) = TrackedLRUCache.hits (parseCache w)
   /\ TrackedLRUCache.misses (parseCache (clearCaches w)) = TrackedLRUCache.misses (parseCache w)
   /\ TrackedLRUCache.hits (stringifyCache (clearCaches w))
      = TrackedLRUCache.hits (stringifyCache w)
   /\ TrackedLRUCache.misses (stringifyCache (clearCaches w))
      = TrackedLRUCache.misses (stringifyCache w))
  /\ (TrackedLRUCache.hits (TrackedLRUCache.resetStats c) = 0%Z
      /\ TrackedLRUCache.misses (TrackedLRUCache.resetStats c) = 0%Z
      /\ TrackedLRUCache.base (TrackedLRUCache.resetStats c) = TrackedLRUCache.base c
      /\ TrackedLRUCache.size (TrackedLRUCache.resetStats c) = TrackedLRUCache.size c)
  /\ TrackedLRUCache.resetStats (TrackedLRUCache.clear c)
     = TrackedLRUCache.clear (TrackedLRUCache.resetStats c).
Proof.
  repeat split.
Qed.



(** ** The options of [stringify] *)

Lemma Qle_bool_inject_Z (a b : Z) : Qle_bool (inject_Z a) (inject_Z b) = (a <=? b)%Z.
Proof.
  destruct (Z.leb_spec a b) as [Hle|Hlt].
  - apply Qle_bool_iff. now rewrite <- Zle_Qle.
  - destruct (Qle_bool (inject_Z a) (inject_Z b)) eqn:Hq; auto.
    apply Qle_bool_iff in Hq. rewrite <- Zle_Qle in Hq. lia.
Qed.

Lemma number_to_indent_finite (q : Q) :
  number_to_indent (VNum (NFin q)) = indent_for (Qfloor (q + (1 # 2))%Q).
Proof.
  unfold number_to_indent, Math_round, indent_for.
  set (r := Qfloor (q + (1 # 2))%Q).
  destruct ((r =? 0)%Z && negb (Qle_bool 0%Q q)) eqn:Hz.
  - apply andb_true_iff in Hz. destruct Hz as [Hr _].
    apply Z.eqb_eq in Hr. rewrite Hr. reflexivity.
  - unfold Number_lt_int, Number_gt_int. rewrite !Qle_bool_inject_Z.
    destruct (Z.ltb_spec r 1), (Z.leb_spec 1 r); try lia; simpl; auto.
    destruct (Z.ltb_spec 8 r), (Z.leb_spec r 8); try lia; simpl; auto.
Qed.

Lemma Qfloor_half_up_integer (n : Z) : Qfloor (inject_Z n + (1 # 2))%Q = n.
Proof.
  unfold Qfloor, Qplus, inject_Z. simpl.
  replace (n * 2 + 1)%Z with (1 + n * 2)%Z by lia.
  rewrite Z.div_add by lia. reflexivity.
Qed.

(** C8, at the bare number 0.5: it is below 1, and [stringify] gives it
    the explicit indent 1 instead of leaving the indent to the engine. *)
Lemma C8_counterexample :
  (1 # 2 < 1)%Q
  /\ normalize_options (VNum (NFin (1 # 2)))
     = VObj [("indent"%string, VNum (NFin (inject_Z 1)))]
  /\ normalize_options (VNum (NFin (1 # 2))) <> VUndefined.
Proof.
  split; [reflexivity | split; [reflexivity | discriminate]].
Qed.

(** C8, amended: a bare string is handled as the bare number equal to its
    length, in [stringify] as a whole.  A bare finite number is rounded to
    the nearest integer [r], halves upwards: [r < 1] leaves the options
    undefined (engine default), [r > 8] gives indent 8, and otherwise the
    indent is [r].  For an integer [n] the rounding is the identity, so a
    string of length 1 to 8 gets its length as indent, a longer one gets
    8 and the empty string gets the default. *)
Theorem C8_normalized_options `{Engine} (v replacer : value) (s : string)
    (q : Q) (n : Z) :
  normalize_options (VStr s)
  = indent_for (Z.of_nat (String.length s))
  /\ stringify v replacer (VStr s)
     = stringify v replacer (VNum (NFin (inject_Z (Z.of_nat (String.length s)))))
  /\ normalize_options (VNum (NFin q)) = indent_for (Qfloor (q + (1 # 2))%Q)
  /\ normalize_options (VNum (NFin (inject_Z n))) = indent_for n
  /\ indent_for n
     = (if (n <? 1)%Z then VUndefined
        else VObj [("indent"%string, VNum (NFin (inject_Z (Z.min n 8))))]).
Proof.
  split; [| split; [| split; [| split]]].
  - unfold normalize_options. simpl string_to_length.
    now rewrite number_to_indent_finite, Qfloor_half_up_integer.
  - unfold stringify, stringify_options.
    destruct (has_replacer replacer); reflexivity.
  - apply number_to_indent_finite.
  - unfold normalize_options. simpl string_to_length.
    now rewrite number_to_indent_finite, Qfloor_half_up_integer.
  - unfold indent_for. destruct (Z.ltb_spec n 1); auto.
    destruct (Z.ltb_spec 8 n).
    + now rewrite Z.min_r by lia.
    + now rewrite Z.min_l by lia.
Qed.

(** ** Which calls touch the caches *)

Lemma parse_compute_with_reviver `{Engine} (src : string) (options _reviver : value)
    (cacheKey : string) (w : world) :
  truthy _reviver = true ->
  parseCache (snd (parse_compute src options _reviver cacheKey w)) = parseCache w
  /\ stringifyCache (snd (parse_compute src options _reviver cacheKey w))
     = stringifyCache w.
Proof.
  intros Hr. unfold parse_compute, bind, lift, ret, throw, warn_all.
  rewrite Hr. simpl.
  destruct (parseDocument src options) as [[d|]|e]; simpl; auto.
  destruct (errors d) as [|e0 es]; simpl.
  - destruct (toJS d _reviver options); simpl; auto.
  - destruct (negb (String.eqb (logLevel d) "silent")); simpl; auto.
    destruct (toJS (clear_errors d) _reviver options); simpl; auto.
Qed.

Lemma stringify_direct_frame `{Engine} (v _replacer options : value) (w : world) :
  snd (stringify_direct v _replacer options w) = w.
Proof.
  unfold stringify_direct, bind, lift, ret.
  destruct v; simpl;
    try (destruct (new_Document_toString _ _replacer options); reflexivity).
  destruct (negb (truthy _replacer)); simpl.
  - destruct (Document_toString id options); reflexivity.
  - destruct (new_Document_toString (VDoc id) _replacer options); reflexivity.
Qed.

(** A call of [parse] whose reviver argument is a function leaves the
    parse cache (bindings, order, hits, misses) and the stringify cache as
    they were, whatever it returns or throws; a call of [stringify] whose
    replacer argument is a function or an array leaves both caches as they
    were.  A reviver given inside the options object is another matter,
    see below. *)
Lemma positional_functions_bypass_the_caches `{Engine}
    (src : string) (v reviver replacer options : value) (w : world)
    (Hreviver : is_function reviver = true)
    (Hreplacer : has_replacer replacer = true) :
  parseCache (snd (parse src reviver options w)) = parseCache w
  /\ stringifyCache (snd (parse src reviver options w)) = stringifyCache w
  /\ snd (stringify v replacer options w) = w.
Proof.
  assert (Htr : truthy (parse_reviver reviver) = true).
  { unfold parse_reviver. rewrite Hreviver. now destruct reviver. }
  assert (Htp : truthy (stringify_replacer replacer) = true).
  { unfold stringify_replacer. rewrite Hreplacer.
    destruct replacer; try discriminate; reflexivity. }
  split; [| split].
  - unfold parse. rewrite Htr. simpl. now apply parse_compute_with_reviver.
  - unfold parse. rewrite Htr. simpl. now apply parse_compute_with_reviver.
  - unfold stringify. rewrite Htp. simpl.
    destruct (is_undefined v && _); [reflexivity |].
    apply stringify_direct_frame.
Qed.

Lemma positional_functions_example :
  let w := snd (@parse sample_engine "a: 1" VUndefined VUndefined initial_world) in
  parseCache (snd (@parse sample_engine "a: 1" (VFun 0) VUndefined w)) = parseCache w
  /\ snd (@stringify sample_engine (VStr "a") (VArr []) VUndefined w) = w.
Proof.
  cbv zeta.
  destruct (@positional_functions_bypass_the_caches sample_engine
              "a: 1"%string (VStr "a") (VFun 0) (VArr []) VUndefined
              (snd (@parse sample_engine "a: 1" VUndefined VUndefined initial_world))
              eq_refl eq_refl) as (Hp & _ & Hs).
  split; [exact Hp | exact Hs].
Defined.

Lemma stringify_cached_block `{Engine} (v options : value) (w : world) :
  let key := stringify_cacheKey v options in
  let out :=
    (cached <- stringifyCache_get key ;;
     if negb (is_undefined cached) then ret cached
     else
       result <- lift (new_Document_toString v VNull options) ;;
       stringifyCache_set key (VStr result) ;;
       ret (VStr result))%js w in
  parseCache (snd out) = parseCache w
  /\ cache_reads (stringifyCache (snd out)) = (cache_reads (stringifyCache w) + 1)%Z
  /\ match fst out with
     | Ok r =>
         JSMap.get string_dec key
           (LRUCache.cache (TrackedLRUCache.base (stringifyCache (snd out)))) = r
         /\ is_undefined r = false
     | Throw _ => True
     end.
Proof.
  cbv zeta. unfold bind, stringifyCache_get, stringifyCache_set, lift, ret, cache_reads.
  set (key := stringify_cacheKey v options).
  destruct (is_undefined (JSMap.get string_dec key
              (LRUCache.cache (TrackedLRUCache.base (stringifyCache w))))) eqn:Hu.
  - rewrite (TrackedFacts.tracked_get_undefined string_dec key _ Hu). simpl.
    destruct (new_Document_toString v VNull options) as [s|e]; simpl.
    + split; [reflexivity | split; [lia |]].
      split; [apply JSMapFacts.get_set_same | reflexivity].
    + split; [reflexivity | split; [lia | exact I]].
  - pose proof (TrackedFacts.get_after_get string_dec key (stringifyCache w) Hu) as Hkeep.
    rewrite (TrackedFacts.tracked_get_defined string_dec key _ Hu) in *.
    simpl in *. rewrite Hu. simpl.
    split; [reflexivity | split; [lia |]].
    split; [exact Hkeep | exact Hu].
Qed.

(** C6: [stringify] leaves the parse cache alone.  When no replacer
    function or array is given, the value is not a document and it is a
    string, a boolean, a finite number other than [-0] or [null], the call
    reads the stringify cache exactly once (one counter goes up by one)
    and, if it returns, its result is stored under the key of the call;
    for every other call the caches are exactly as before. *)
Theorem C6_stringify_cache_use `{Engine} (v replacer options : value) (w : world) :
  let key := stringify_cacheKey v (normalize_options (stringify_options replacer options)) in
  let out := stringify v replacer options w in
  parseCache (snd out) = parseCache w
  /\ if spec_stringify_cacheable v replacer
     then cache_reads (stringifyCache (snd out)) = (cache_reads (stringifyCache w) + 1)%Z
          /\ match fst out with
             | Ok r =>
                 JSMap.get string_dec key
                   (LRUCache.cache (TrackedLRUCache.base (stringifyCache (snd out)))) = r
                 /\ is_undefined r = false
             | Throw _ => True
             end
     else snd out = w.
Proof.
  cbv zeta. unfold spec_stringify_cacheable, stringify.
  fold (has_replacer replacer). unfold stringify_replacer.
  destruct (has_replacer replacer) eqn:Hr.
  - assert (Ht : truthy replacer = true).
    { unfold has_replacer in Hr. destruct replacer; try discriminate; reflexivity. }
    rewrite Ht. simpl.
    destruct (is_undefined v && _); simpl; [auto |].
    rewrite stringify_direct_frame. auto.
  - simpl negb. simpl truthy. cbv iota.
    set (options' := normalize_options (stringify_options replacer options)).
    assert (Hdirect : forall u : value,
               parseCache (snd (stringify_direct u VNull options' w)) = parseCache w
               /\ snd (stringify_direct u VNull options' w) = w)
      by (intros u; now rewrite stringify_direct_frame).
    destruct v as [| |b|n|s|f|items|fields|d];
      cbn -[stringify_direct stringify_cacheKey];
      try (destruct (truthy (get_prop _ _)); cbn -[stringify_direct]);
      try apply Hdirect; try (now apply stringify_cached_block); auto.
    destruct n; cbn -[stringify_direct stringify_cacheKey];
      try apply Hdirect; now apply stringify_cached_block.
Qed.

(** ** The multi-document guard of [parseDocument] *)

Lemma loop_silent (d : document) (docs : list document) (consumed : nat) :
  String.eqb (logLevel d) "silent" = true ->
  parseDocument_loop docs (Some d) consumed = (Some d, consumed + List.length docs).
Proof.
  intros Hs. revert consumed.
  induction docs as [|x docs IH]; intros consumed; simpl.
  - f_equal. lia.
  - rewrite Hs. simpl. rewrite IH. f_equal. lia.
Qed.

Lemma loop_two_or_more (first second : document) (rest : list document) :
  parseDocument_loop (first :: second :: rest) None 0
  = if String.eqb (logLevel first) "silent"
    then (Some first, 2 + List.length rest)
    else (Some (push_error first (multiple_docs_error second)), 2).
Proof.
  simpl. destruct (String.eqb (logLevel first) "silent") eqn:Hs; simpl; auto.
  now rewrite loop_silent.
Qed.

Lemma parseOptions_lineCounter (options lineCounter : value) (prettyErrors : bool) :
  parseOptions options = Ok (lineCounter, prettyErrors) ->
  prettyErrors && truthy lineCounter = prettyErrors.
Proof.
  unfold parseOptions. destruct (nullish options); [discriminate |].
  intros Heq. inversion Heq; subst. clear Heq.
  destruct (negb (is_false (get_prop options "prettyErrors"))); auto.
  unfold or_else.
  destruct (truthy (get_prop options "lineCounter")) eqn:Hl; simpl; rewrite ?Hl; auto.
Qed.

(** C5, with the log level [silent]: three documents are composed, the
    document returned carries no error at all, and all three documents
    are taken from the generator. *)
Lemma C5_counterexample :
  let options := VObj [("logLevel"%string, VStr "silent")] in
  List.length (@compose sample_engine three_docs_source options) = 3
  /\ @parseDocument sample_engine three_docs_source options
     = Ok (Some (mk_document 1 [] [] "silent" [0; 11; 11]%Z))
  /\ @parseDocument_consumed sample_engine three_docs_source options = 3.
Proof.
  cbv zeta. split; [| split]; reflexivity.
Qed.

(** C5, amended: let the compose step yield a first and a second document
    and possibly more, for options that are not [null].  If the log level
    of the first document is not [silent], [parseDocument] returns the
    first document with exactly one error appended to its errors, of code
    [MULTIPLE_DOCS] and positioned at the first two offsets of the second
    document's range, and it takes no document after the second from the
    generator.  If the log level is [silent], it returns the first
    document with its errors as the engine left them and takes every
    document from the generator. *)
Theorem C5_multiple_documents `{Engine} (source : string) (options : value)
    (first second : document) (rest : list document)
    (Hoptions : is_null options = false)
    (Hdocs : compose source (if is_undefined options then VObj [] else options)
             = first :: second :: rest) :
  let options' := if is_undefined options then VObj [] else options in
  if String.eqb (logLevel first) "silent"
  then parseDocument source options = Ok (Some (finished source options' first))
       /\ parseDocument_consumed source options = 2 + List.length rest
  else parseDocument source options
       = Ok (Some (finished source options'
                     (push_error first (multiple_docs_error second))))
       /\ errors (push_error first (multiple_docs_error second))
          = errors first
              ++ [mk_error (firstn 2 (range second)) "MULTIPLE_DOCS"
                           MULTIPLE_DOCS_message]
       /\ parseDocument_consumed source options = 2.
Proof.
  cbv zeta. unfold parseDocument, parseDocument_consumed, finished.
  rewrite Hdocs, loop_two_or_more.
  set (options' := if is_undefined options then VObj [] else options).
  assert (Hnn : nullish options' = false).
  { unfold options', nullish. destruct options; try discriminate; reflexivity. }
  destruct (parseOptions options') as [[lineCounter prettyErrors]|e] eqn:Hpo.
  - rewrite (parseOptions_lineCounter _ Hpo).
    destruct (String.eqb (logLevel first) "silent"), prettyErrors; simpl; auto.
  - unfold parseOptions in Hpo. rewrite Hnn in Hpo. discriminate.
Qed.

Lemma C5_witness :
  @parseDocument sample_engine two_docs_source VUndefined
  = Ok (Some (mk_document 1
                [mk_error [11; 22]%Z "MULTIPLE_DOCS" MULTIPLE_DOCS_message]
                [] "warn" [0; 11; 11]%Z))
  /\ @parseDocument_consumed sample_engine two_docs_source VUndefined = 2.
Proof.
  pose proof (@C5_multiple_documents sample_engine two_docs_source VUndefined
                (mk_document 1 [] [] "warn" [0; 11; 11]%Z)
                (mk_document 2 [] [] "warn" [11; 22; 22]%Z) []
                eq_refl eq_refl) as Hguard.
  simpl in Hguard. destruct Hguard as (Hdoc & _ & Hn).
  split; [exact Hdoc | exact Hn].
Defined.

(** ** Repeated calls of [parse] *)

Lemma parse_compute_stores `{Engine} (src : string) (options _reviver : value)
    (cacheKey : string) (w : world) (v : value) :
  truthy _reviver = false ->
  fst (parse_compute src options _reviver cacheKey w) = Ok v ->
  parseCache (snd (parse_compute src options _reviver cacheKey w))
  = TrackedLRUCache.set string_dec cacheKey v (parseCache w).
Proof.
  intros Hr. unfold parse_compute, bind, lift, ret, throw, warn_all, parseCache_set.
  rewrite Hr. simpl.
  destruct (parseDocument src options) as [[d|]|e]; simpl.
  - destruct (errors d) as [|e0 es]; simpl.
    + destruct (toJS d _reviver options); simpl; [| discriminate].
      intros Hv. now inversion Hv.
    + destruct (negb (String.eqb (logLevel d) "silent")); simpl; [discriminate |].
      destruct (toJS (clear_errors d) _reviver options); simpl; [| discriminate].
      intros Hv. now inversion Hv.
  - intros Hv. now inversion Hv.
  - discriminate.
Qed.

Lemma parse_without_reviver `{Engine} (src : string) (reviver options : value)
    (w : world) :
  is_function reviver = false ->
  parse_reviver reviver = VUndefined
  /\ parse src reviver options w
     = let key := parse_cacheKey src (parse_options reviver options) VUndefined in
       match TrackedLRUCache.get string_dec key (parseCache w) with
       | (cached, c) =>
           let w' := mk_world c (stringifyCache w) (warn_calls w) in
           if negb (is_undefined cached) then (Ok cached, w')
           else parse_compute src (parse_options reviver options) VUndefined key w'
       end.
Proof.
  intros Hf.
  assert (Hr : parse_reviver reviver = VUndefined)
    by (unfold parse_reviver; now rewrite Hf).
  split; [exact Hr |].
  unfold parse. rewrite Hr. cbn [truthy negb]. cbv zeta.
  unfold bind, parseCache_get, ret.
  destruct (TrackedLRUCache.get string_dec _ (parseCache w)) as [cached c].
  now destruct (negb (is_undefined cached)).
Qed.

(** A call without reviver whose key is bound to a defined value returns
    that value and counts a hit. *)
Lemma parse_hit `{Engine} (src : string) (reviver options : value) (w : world) :
  let key := parse_cacheKey src (parse_options reviver options) (parse_reviver reviver) in
  let bound := JSMap.get string_dec key
                 (LRUCache.cache (TrackedLRUCache.base (parseCache w))) in
  is_function reviver = false ->
  is_undefined bound = false ->
  fst (parse src reviver options w) = Ok bound
  /\ TrackedLRUCache.hits (parseCache (snd (parse src reviver options w)))
     = (TrackedLRUCache.hits (parseCache w) + 1)%Z
  /\ TrackedLRUCache.misses (parseCache (snd (parse src reviver options w)))
     = TrackedLRUCache.misses (parseCache w)
  /\ JSMap.get string_dec key
       (LRUCache.cache (TrackedLRUCache.base
          (parseCache (snd (parse src reviver options w))))) = bound.
Proof.
  cbv zeta. intros Hf Hu.
  pose proof (TrackedFacts.get_after_get string_dec _ (parseCache w) Hu) as Hkeep.
  destruct (parse_without_reviver src reviver options w Hf) as [Hr ->].
  rewrite Hr in *. cbv zeta.
  rewrite (TrackedFacts.tracked_get_defined string_dec _ _ Hu) in *.
  rewrite Hu. simpl in *. auto.
Qed.

(** C1, at a source with a syntax error: both calls throw the error of
    the document, and the second call counts one more miss and no hit. *)
Lemma C1_counterexample :
  let first := @parse sample_engine broken_source VUndefined VUndefined initial_world in
  let second := @parse sample_engine broken_source VUndefined VUndefined (snd first) in
  fst first = fst second
  /\ TrackedLRUCache.hits (parseCache (snd second))
     = TrackedLRUCache.hits (parseCache (snd first))
  /\ TrackedLRUCache.misses (parseCache (snd second))
     = (TrackedLRUCache.misses (parseCache (snd first)) + 1)%Z.
Proof.
  cbv zeta. split; [| split]; vm_compute; reflexivity.
Qed.

(** C1, amended: when a call of [parse] without reviver function returns
    a value other than [undefined], the same call made next returns the
    same value, adds exactly one to the hits of the parse cache and leaves
    its misses unchanged. *)
Theorem C1_repeated_parse_hits `{Engine} (src : string) (reviver options : value)
    (w : world) (v : value)
    (Hreviver : is_function reviver = false)
    (Hfirst : fst (parse src reviver options w) = Ok v)
    (Hdefined : is_undefined v = false) :
  let w1 := snd (parse src reviver options w) in
  fst (parse src reviver options w1) = Ok v
  /\ TrackedLRUCache.hits (parseCache (snd (parse src reviver options w1)))
     = (TrackedLRUCache.hits (parseCache w1) + 1)%Z
  /\ TrackedLRUCache.misses (parseCache (snd (parse src reviver options w1)))
     = TrackedLRUCache.misses (parseCache w1).
Proof.
  cbv zeta.
  set (key := parse_cacheKey src (parse_options reviver options) (parse_reviver reviver)).
  assert (Hbound : JSMap.get string_dec key
                     (LRUCache.cache (TrackedLRUCache.base
                        (parseCache (snd (parse src reviver options w))))) = v).
  { destruct (is_undefined (JSMap.get string_dec key
                (LRUCache.cache (TrackedLRUCache.base (parseCache w))))) eqn:Hu.
    - destruct (parse_without_reviver src reviver options w Hreviver) as [Hr Hparse].
      unfold key in *. rewrite Hr in *.
      revert Hfirst. rewrite Hparse. cbv zeta.
      rewrite (TrackedFacts.tracked_get_undefined string_dec _ _ Hu).
      simpl negb. cbv iota. intros Hfirst.
      rewrite (@parse_compute_stores _ src _ VUndefined _ _ v eq_refl Hfirst).
      apply TrackedFacts.get_after_set.
    - destruct (parse_hit src reviver options w Hreviver Hu) as (Hres & _ & _ & Hkeep).
      fold key in Hkeep. rewrite Hkeep.
      rewrite Hres in Hfirst. now inversion Hfirst. }
  assert (Hu1 : is_undefined (JSMap.get string_dec key
                  (LRUCache.cache (TrackedLRUCache.base
                     (parseCache (snd (parse src reviver options w)))))) = false)
    by now rewrite Hbound.
  destruct (parse_hit src reviver options _ Hreviver Hu1) as (Hres & Hh & Hm & _).
  fold key in Hres. rewrite Hbound in Hres. auto.
Qed.

Lemma C1_witness :
  let first := @parse sample_engine "a: 1" VUndefined VUndefined initial_world in
  let second := @parse sample_engine "a: 1" VUndefined VUndefined (snd first) in
  fst second = Ok (VObj [("doc"%string, VNum (NFin (inject_Z 0)))])
  /\ TrackedLRUCache.hits (parseCache (snd second)) = 1%Z
  /\ TrackedLRUCache.misses (parseCache (snd second)) = 1%Z.
Proof.
  cbv zeta.
  destruct (@C1_repeated_parse_hits sample_engine "a: 1" VUndefined VUndefined
              initial_world (VObj [("doc"%string, VNum (NFin (inject_Z 0)))])
              eq_refl eq_refl eq_refl) as (Hres & Hh & Hm).
  split; [exact Hres | split].
  - rewrite Hh. reflexivity.
  - rewrite Hm. reflexivity.
Defined.

(** ** Cache keys *)





Lemma JSON_stringify_object `{Engine} (fields : list (string * value)) :
  JSON_stringify (VObj fields)
  = Some ("{" ++ join_comma (flat_map JSON_property fields) ++ "}")%string.
Proof. reflexivity. Qed.





Lemma or_else_object (fields : list (string * value)) (d : value) :
  or_else (VObj fields) d = VObj fields.
Proof. reflexivity. Qed.









(** * Further properties of the store *)

Module StoreFacts.
Section WithKey.
Variable K : Type.
Variable K_eq_dec : forall x y : K, {x = y} + {x <> y}.

Import LRUCache.
Local Abbreviation get := (LRUCache.get K_eq_dec).
Local Abbreviation set := (LRUCache.set K_eq_dec).
Local Abbreviation mget := (JSMap.get K_eq_dec).
Local Abbreviation mhas := (JSMap.has K_eq_dec).
Local Abbreviation mdelete := (JSMap.delete K_eq_dec).

Lemma mget_delete_other (j k : K) (m : JSMap.t K) :
  j <> k -> mget j (mdelete k m) = mget j m.
Proof.
  intros Hne. induction m as [|[k' v'] m IH]; simpl; auto.
  destruct (K_eq_dec k k') as [<-|Hk]; simpl.
  - destruct (K_eq_dec j k); [contradiction | exact IH].
  - destruct (K_eq_dec j k'); [reflexivity | exact IH].
Qed.

Lemma mget_snoc_other (j k : K) (v : value) (m : JSMap.t K) :
  j <> k -> mget j (m ++ [(k, v)]) = mget j m.
Proof.
  intros Hne. induction m as [|[k' v'] m IH]; simpl.
  - now destruct (K_eq_dec j k).
  - destruct (K_eq_dec j k'); [reflexivity | exact IH].
Qed.

Lemma mget_snoc_same (k : K) (v : value) (m : JSMap.t K) :
  mhas k m = false -> mget k (m ++ [(k, v)]) = v.
Proof.
  intros Hk. rewrite <- (JSMapFacts.set_absent K_eq_dec k v m Hk).
  apply JSMapFacts.get_set_same.
Qed.

Lemma mdelete_snoc_same (k : K) (v : value) (m : JSMap.t K) :
  mhas k m = false -> mdelete k (m ++ [(k, v)]) = m.
Proof.
  intros Hk. unfold JSMap.delete. rewrite filter_app. simpl.
  destruct (K_eq_dec k k); [| contradiction].
  rewrite app_nil_r. now apply JSMapFacts.delete_absent.
Qed.

(** The map that [set] hands to [Map.set]: the key is not in it. *)
Lemma set_shape (k : K) (v : value) (c : LRUCache.t K) :
  exists m1 : JSMap.t K,
    cache (set k v c) = m1 ++ [(k, v)] /\ mhas k m1 = false.
Proof.
  unfold LRUCache.set.
  match goal with
  | |- context [JSMap.set K_eq_dec k v ?m] => set (m1 := m)
  end.
  assert (Hk : mhas k m1 = false).
  { unfold m1. destruct (mhas k (cache c)) eqn:Hh.
    - apply JSMapFacts.has_delete_same.
    - destruct (maxSize c <=? _)%Z; auto.
      destruct (JSMap.first_key (cache c)) as [k0|]; auto.
      destruct (K_eq_dec k k0) as [->|Hne];
        [apply JSMapFacts.has_delete_same |].
      now rewrite JSMapFacts.has_delete_other. }
  exists m1. simpl. split; [now apply JSMapFacts.set_absent | exact Hk].
Qed.

(** Reading back what was just written: [get] answers the value and the
    store is as [set] left it, whatever the capacity. *)
Theorem get_after_set_round_trip (k : K) (v : value) (c : LRUCache.t K) :
  is_undefined v = false ->
  get k (set k v c) = (v, set k v c) /\ LRUCache.has K_eq_dec k (set k v c) = true.
Proof.
  intros Hv. destruct (set_shape k v c) as (m1 & Hc & Hk).
  assert (Hg : mget k (cache (set k v c)) = v)
    by (rewrite Hc; now apply mget_snoc_same).
  split.
  - unfold LRUCache.get. rewrite Hg, Hv. simpl. f_equal.
    rewrite Hc at 1. rewrite (@mdelete_snoc_same k v m1 Hk).
    rewrite (JSMapFacts.set_absent K_eq_dec k v m1 Hk), <- Hc.
    reflexivity.
  - unfold LRUCache.has. simpl. apply JSMapFacts.has_set_same.
Qed.

Lemma get_preserves_lookup (j k : K) (c : LRUCache.t K) :
  mget j (cache (snd (get k c))) = mget j (cache c)
  /\ mhas j (cache (snd (get k c))) = mhas j (cache c).
Proof.
  destruct (is_undefined (mget k (cache c))) eqn:Hu.
  - now rewrite (LRUFacts.get_undefined K_eq_dec k c Hu).
  - rewrite (LRUFacts.get_defined K_eq_dec k c Hu). simpl.
    pose proof (JSMapFacts.has_delete_same K_eq_dec k (cache c)) as Hk.
    destruct (K_eq_dec j k) as [->|Hne].
    + split; [now apply mget_snoc_same |].
      rewrite <- (JSMapFacts.set_absent K_eq_dec k (mget k (cache c)) _ Hk).
      rewrite JSMapFacts.has_set_same. symmetry.
      now apply LRUFacts.defined_has.
    + split; [rewrite mget_snoc_other, mget_delete_other; auto |].
      destruct (mhas j (cache c)) eqn:Hj.
      * apply JSMapFacts.has_In. rewrite JSMapFacts.keys_app, in_app_iff. left.
        apply JSMapFacts.In_keys_delete. split; [now apply (JSMapFacts.has_In K_eq_dec) | exact Hne].
      * apply JSMapFacts.has_false_not_In.
        rewrite JSMapFacts.keys_app, in_app_iff. simpl.
        intros [Hin|[Heq|[]]]; [| congruence].
        apply JSMapFacts.In_keys_delete in Hin.
        apply (JSMapFacts.has_false_not_In K_eq_dec) in Hj. tauto.
Qed.

(** [get] changes no binding: every key reads the same before and after,
    and is present or absent as before. *)
Theorem get_keeps_every_binding (j k : K) (c : LRUCache.t K) :
  mget j (cache (snd (get k c))) = mget j (cache c)
  /\ mhas j (cache (snd (get k c))) = mhas j (cache c).
Proof. apply get_preserves_lookup. Qed.


(** A new key put into a store that is full and not empty: exactly the
    first binding goes, the others keep their order, the new binding is
    last and the size is what it was. *)
Theorem set_at_capacity_evicts_the_first (k k0 : K) (v v0 : value)
    (rest : JSMap.t K) (c : LRUCache.t K)
    (Hwf : JSMap.wf (cache c))
    (Hnew : LRUCache.has K_eq_dec k c = false)
    (Hfull : (maxSize c <= Z.of_nat (size c))%Z)
    (Hcache : cache c = (k0, v0) :: rest) :
  cache (set k v c) = rest ++ [(k, v)]
  /\ size (set k v c) = size c
  /\ LRUCache.has K_eq_dec k0 (set k v c) = false
  /\ Further.evicted_by_set K_eq_dec k c = Some k0.
Proof.
  pose proof (@LRUFacts.set_new_at_capacity K K_eq_dec k k0 v v0 rest c Hwf Hnew Hfull Hcache)
    as Hset.
  assert (Hk0 : k <> k0).
  { intros ->. unfold LRUCache.has in Hnew. rewrite Hcache in Hnew. simpl in Hnew.
    now destruct (K_eq_dec k0 k0). }
  split; [exact Hset | split; [| split]].
  - unfold LRUCache.size, JSMap.size. rewrite Hset, Hcache, length_app. simpl. lia.
  - unfold LRUCache.has. rewrite Hset.
    apply JSMapFacts.has_false_not_In. rewrite JSMapFacts.keys_app, in_app_iff. simpl.
    unfold JSMap.wf in Hwf. rewrite Hcache in Hwf. simpl in Hwf.
    inversion Hwf as [|? ? Hnin _]; subst.
    intros [Hin|[Heq|[]]]; [tauto | congruence].
  - unfold Further.evicted_by_set. unfold LRUCache.has in Hnew. rewrite Hnew.
    unfold LRUCache.size in Hfull.
    destruct (Z.leb_spec (maxSize c) (Z.of_nat (JSMap.size (cache c)))); [| lia].
    now rewrite Hcache.
Qed.

Lemma size_set_any_capacity (k : K) (v : value) (c : LRUCache.t K) :
  JSMap.wf (cache c) ->
  (Z.of_nat (size c) <= Z.max 1 (maxSize c))%Z ->
  (Z.of_nat (size (set k v c)) <= Z.max 1 (maxSize c))%Z.
Proof.
  intros Hwf Hsize. destruct (LRUCache.has K_eq_dec k c) eqn:Hk.
  - now rewrite LRUFacts.set_existing_size.
  - destruct (Z.lt_ge_cases (Z.of_nat (size c)) (maxSize c)) as [Hroom|Hfull].
    + unfold LRUCache.size. rewrite (LRUFacts.set_new_with_room K_eq_dec k v c Hk Hroom).
      unfold JSMap.size. rewrite length_app. simpl.
      unfold LRUCache.size, JSMap.size in Hroom. lia.
    + destruct (cache c) as [|[k0 v0] rest] eqn:Hc.
      * unfold LRUCache.size.
        rewrite (LRUFacts.set_new_nothing_to_evict K_eq_dec k v c Hc). simpl. lia.
      * rewrite <- Hc in Hwf. unfold LRUCache.size.
        rewrite (@LRUFacts.set_new_at_capacity K K_eq_dec k k0 v v0 rest c Hwf Hk Hfull Hc).
        unfold LRUCache.size, JSMap.size in Hsize. rewrite Hc in Hsize.
        unfold JSMap.size. rewrite length_app. simpl in *. lia.
Qed.

(** What the code keeps for every integer capacity, also 0 and below:
    after any operations on a store that starts empty the keys are unique
    and there are at most [max 1 maxSize] bindings. *)
Lemma size_at_most_capacity_or_one (n : option Z) (ops : list (CacheOps.op K)) :
  let c := CacheOps.run_store K_eq_dec ops (LRUCache.new K n) in
  NoDup (JSMap.keys (cache c))
  /\ (Z.of_nat (size c) <= Z.max 1 (maxSize (LRUCache.new K n)))%Z.
Proof.
  cbv zeta. unfold CacheOps.run_store.
  assert (Hgen : forall c : LRUCache.t K,
             JSMap.wf (cache c) /\ (Z.of_nat (size c) <= Z.max 1 (maxSize c))%Z ->
             JSMap.wf (cache (fold_left (fun c o => CacheOps.step_store K_eq_dec o c) ops c))
             /\ (Z.of_nat (size (fold_left (fun c o => CacheOps.step_store K_eq_dec o c) ops c))
                 <= Z.max 1 (maxSize c))%Z).
  { induction ops as [|o ops IH]; intros c [Hwf Hs]; simpl; [now split |].
    assert (Hstep : JSMap.wf (cache (CacheOps.step_store K_eq_dec o c))
                    /\ (Z.of_nat (size (CacheOps.step_store K_eq_dec o c))
                        <= Z.max 1 (maxSize c))%Z
                    /\ maxSize (CacheOps.step_store K_eq_dec o c) = maxSize c).
    { destruct o as [k|k v|k| |]; simpl.
      - split; [now apply LRUFacts.wf_get |].
        rewrite LRUFacts.size_get, LRUFacts.maxSize_get; auto.
      - split; [now apply LRUFacts.wf_set |].
        split; [now apply size_set_any_capacity | reflexivity].
      - auto.
      - split; [constructor | split; [simpl; lia | reflexivity]].
      - auto. }
    destruct Hstep as (Hwf' & Hs' & Hm).
    rewrite <- Hm. apply IH. rewrite Hm. now split. }
  apply Hgen. split; [constructor | simpl; lia].
Qed.

End WithKey.

Lemma get_after_set_witness :
  LRUCache.get string_dec "k"%string
    (LRUCache.set string_dec "k"%string (VStr "v") (LRUCache.new string (Some 0%Z)))
  = (VStr "v",
     LRUCache.set string_dec "k"%string (VStr "v") (LRUCache.new string (Some 0%Z))).
Proof.
  exact (proj1 (@get_after_set_round_trip string string_dec "k"%string (VStr "v")
                  (LRUCache.new string (Some 0%Z)) eq_refl)).
Defined.


Lemma eviction_witness :
  let c := LRUCache.set string_dec "b"%string (VStr "2")
             (LRUCache.set string_dec "a"%string (VStr "1")
                (LRUCache.new string (Some 2%Z))) in
  LRUCache.cache (LRUCache.set string_dec "c"%string (VStr "3") c)
  = [("b"%string, VStr "2")] ++ [("c"%string, VStr "3")].
Proof.
  cbv zeta.
  refine (proj1 (@set_at_capacity_evicts_the_first string string_dec "c"%string "a"%string
                   (VStr "3") (VStr "1") [("b"%string, VStr "2")] _ _ _ _ _)).
  - repeat constructor; simpl; intuition discriminate.
  - reflexivity.
  - simpl. lia.
  - reflexivity.
Defined.

Lemma least_recently_used_witness :
  let ops := [CacheOps.Set_ "a"%string (VStr "1"); CacheOps.Set_ "b"%string (VStr "2");
              CacheOps.Get "a"%string; CacheOps.Set_ "c"%string (VStr "3")] in
  let final := CacheOps.run_stamped string_dec ops (LRUCache.new string (Some 2%Z)) 1
                 (fun _ => 0) in
  JSMap.keys (LRUCache.cache (fst final)) = ["a"%string; "c"%string]
  /\ Forall (fun j => snd final "a"%string < snd final j) ["c"%string].
Proof.
  cbv zeta. split; [reflexivity |].
  exact (@LRUFacts.first_key_least_recently_used string string_dec
           [CacheOps.Set_ "a"%string (VStr "1"); CacheOps.Set_ "b"%string (VStr "2");
            CacheOps.Get "a"%string; CacheOps.Set_ "c"%string (VStr "3")]
           (Some 2%Z) "a"%string (VStr "1") [("c"%string, VStr "3")] eq_refl).
Defined.
End StoreFacts.

(** * The store at a capacity that is any number *)

Module NumberCapacityFacts.
Section WithKey.
Variable K : Type.
Variable K_eq_dec : forall x y : K, {x = y} + {x <> y}.

Import LRUCacheNum.

(** At a capacity that is finite, [-0] or [-Infinity] the test of [set]
    is the test at the capacity rounded up. *)
Lemma size_reaches_integer (m : number) (z : Z) (n : nat) :
  integer_capacity m = Some z -> size_reaches n m = (z <=? Z.of_nat n)%Z.
Proof.
  destruct m as [q| | | |]; simpl; intros Hz; inversion Hz; subst; clear Hz.
  - apply Bool.eq_true_iff_eq. rewrite Qle_bool_iff, Z.leb_le. split.
    + intros Hq. apply Qceiling_resp_le in Hq. now rewrite Qceiling_Z in Hq.
    + intros Hc. apply Qle_trans with (inject_Z (Qceiling q)); [apply Qle_ceiling |].
      now rewrite <- Zle_Qle.
  - symmetry. apply Z.leb_le. lia.
  - symmetry. apply Z.leb_le. lia.
Qed.

Lemma size_reaches_never (m : number) (n : nat) :
  integer_capacity m = None -> size_reaches n m = false.
Proof. destruct m; simpl; congruence. Qed.

(** An integer is its own integer capacity. *)
Lemma integer_capacity_integer (z : Z) : integer_capacity (NFin (inject_Z z)) = Some z.
Proof. simpl. now rewrite Qceiling_Z. Qed.

Lemma set_with_capacity (k : K) (v : value) (c : t K) (z : Z) :
  size_reaches (size c) (maxSize c) = (z <=? Z.of_nat (size c))%Z ->
  with_capacity z (set K_eq_dec k v c)
  = LRUCache.set K_eq_dec k v (with_capacity z c).
Proof.
  unfold with_capacity, set, LRUCache.set, size. simpl. now intros ->.
Qed.

Lemma get_with_capacity (k : K) (c : t K) (z : Z) :
  with_capacity z (snd (get K_eq_dec k c))
  = snd (LRUCache.get K_eq_dec k (with_capacity z c)).
Proof.
  unfold with_capacity, get, LRUCache.get. simpl.
  now destruct (negb (is_undefined (JSMap.get K_eq_dec k (cache c)))).
Qed.

Lemma maxSize_step (o : CacheOps.op K) (c : t K) :
  maxSize (step_store K_eq_dec o c) = maxSize c.
Proof.
  destruct o as [k|k v|k| |]; simpl; auto.
  unfold get. now destruct (negb _).
Qed.

Lemma maxSize_run (ops : list (CacheOps.op K)) (c : t K) :
  maxSize (run_store K_eq_dec ops c) = maxSize c.
Proof.
  unfold run_store. revert c. induction ops as [|o ops IH]; intros c; simpl; auto.
  now rewrite IH, maxSize_step.
Qed.

Lemma step_with_capacity (o : CacheOps.op K) (c : t K) (z : Z) :
  integer_capacity (maxSize c) = Some z ->
  with_capacity z (step_store K_eq_dec o c)
  = CacheOps.step_store K_eq_dec o (with_capacity z c).
Proof.
  intros Hz.
  destruct o as [k|k v|k| |]; cbn [step_store CacheOps.step_store]; auto.
  - apply get_with_capacity.
  - apply set_with_capacity. now apply size_reaches_integer.
Qed.

(** The store at such a capacity behaves as the store at the capacity
    rounded up: the same bindings in the same order after the same
    operations. *)
Lemma run_with_capacity (ops : list (CacheOps.op K)) (c : t K) (z : Z) :
  integer_capacity (maxSize c) = Some z ->
  with_capacity z (run_store K_eq_dec ops c)
  = CacheOps.run_store K_eq_dec ops (with_capacity z c).
Proof.
  unfold run_store, CacheOps.run_store. revert c.
  induction ops as [|o ops IH]; intros c Hz; simpl; auto.
  rewrite IH by (now rewrite maxSize_step).
  now rewrite step_with_capacity.
Qed.

(** At an integer capacity the two models of the store agree. *)
Lemma integer_capacity_refines (z : Z) (ops : list (CacheOps.op K)) :
  cache (run_store K_eq_dec ops (new K (Some (NFin (inject_Z z)))))
  = LRUCache.cache (CacheOps.run_store K_eq_dec ops (LRUCache.new K (Some z))).
Proof.
  change (LRUCache.new K (Some z))
    with (with_capacity z (new K (Some (NFin (inject_Z z))))).
  rewrite <- run_with_capacity by apply integer_capacity_integer.
  reflexivity.
Qed.

Lemma unique_keys_step (o : CacheOps.op K) (c : t K) :
  JSMap.wf (cache c) -> JSMap.wf (cache (step_store K_eq_dec o c)).
Proof.
  intros Hwf. destruct o as [k|k v|k| |]; cbn [step_store]; auto.
  - change (cache (snd (get K_eq_dec k c)))
      with (LRUCache.cache (with_capacity 0 (snd (get K_eq_dec k c)))).
    rewrite get_with_capacity. now apply LRUFacts.wf_get.
  - set (z := if size_reaches (size c) (maxSize c) then 0%Z
              else (Z.of_nat (size c) + 1)%Z).
    change (cache (set K_eq_dec k v c))
      with (LRUCache.cache (with_capacity z (set K_eq_dec k v c))).
    rewrite set_with_capacity; [now apply LRUFacts.wf_set |].
    unfold z. destruct (size_reaches (size c) (maxSize c)); symmetry.
    + apply Z.leb_le. lia.
    + apply Z.leb_gt. lia.
  - constructor.
Qed.

Lemma unique_keys_run (ops : list (CacheOps.op K)) (c : t K) :
  JSMap.wf (cache c) -> JSMap.wf (cache (run_store K_eq_dec ops c)).
Proof.
  unfold run_store. revert c. induction ops as [|o ops IH]; intros c Hwf; simpl; auto.
  apply IH. now apply unique_keys_step.
Qed.

(** When the test of [set] fails nothing is evicted. *)
Lemma size_set_no_eviction (k : K) (v : value) (c : t K) :
  JSMap.wf (cache c) ->
  size_reaches (size c) (maxSize c) = false ->
  size (set K_eq_dec k v c) = if has K_eq_dec k c then size c else S (size c).
Proof.
  intros Hwf Hnever.
  set (z := (Z.of_nat (size c) + 1)%Z).
  assert (Hz : size_reaches (size c) (maxSize c) = (z <=? Z.of_nat (size c))%Z).
  { rewrite Hnever. symmetry. apply Z.leb_gt. unfold z. lia. }
  change (size (set K_eq_dec k v c))
    with (LRUCache.size (with_capacity z (set K_eq_dec k v c))).
  rewrite (@set_with_capacity k v c z Hz).
  change (has K_eq_dec k c) with (LRUCache.has K_eq_dec k (with_capacity z c)).
  destruct (LRUCache.has K_eq_dec k (with_capacity z c)) eqn:Hk.
  - now rewrite LRUFacts.set_existing_size.
  - unfold LRUCache.size.
    rewrite (LRUFacts.set_new_with_room K_eq_dec k v (with_capacity z c) Hk)
      by (simpl; unfold LRUCache.size, z, size; simpl; lia).
    unfold JSMap.size. rewrite length_app. simpl. unfold size, JSMap.size. lia.
Qed.

(** The store for every capacity the constructor accepts, a [number]:
    after any operations on a store that starts empty the keys are
    unique.  At a capacity that is finite, [-0] or [-Infinity] there are
    at most as many bindings as the capacity rounded up, and at most one
    when that is less than one: at 1.5 the store holds two.  At [NaN] and
    [+Infinity] nothing is ever evicted: every [set] of a new key adds a
    binding, every [set] of a bound key keeps the size. *)
Theorem size_bound_for_number_capacity (n : option number) (ops : list (CacheOps.op K)) :
  let c := run_store K_eq_dec ops (new K n) in
  NoDup (JSMap.keys (cache c))
  /\ match integer_capacity (maxSize (new K n)) with
     | Some z => (Z.of_nat (size c) <= Z.max 1 z)%Z
     | None => forall (k : K) (v : value),
                 size (set K_eq_dec k v c)
                 = if has K_eq_dec k c then size c else S (size c)
     end.
Proof.
  cbv zeta.
  assert (Hwf : JSMap.wf (cache (run_store K_eq_dec ops (new K n))))
    by (apply unique_keys_run; constructor).
  split; [exact Hwf |].
  destruct (integer_capacity (maxSize (new K n))) as [z|] eqn:Hz.
  - change (size (run_store K_eq_dec ops (new K n)))
      with (LRUCache.size (with_capacity z (run_store K_eq_dec ops (new K n)))).
    rewrite (@run_with_capacity ops (new K n) z Hz).
    exact (proj2 (StoreFacts.size_at_most_capacity_or_one K_eq_dec (Some z) ops)).
  - intros k v. apply size_set_no_eviction; [exact Hwf |].
    apply size_reaches_never. now rewrite maxSize_run.
Qed.

End WithKey.

(** At [new LRUCache(1.5)] with three keys set: two bindings are held.
    At [new LRUCache(NaN)] all three are. *)
Lemma number_capacity_witness :
  let ops := [CacheOps.Set_ "a"%string (VBool true);
              CacheOps.Set_ "b"%string (VBool true);
              CacheOps.Set_ "c"%string (VBool true)] in
  let c := LRUCacheNum.run_store string_dec ops
             (LRUCacheNum.new string (Some (NFin (3 # 2)))) in
  (Z.of_nat (LRUCacheNum.size c) <= 2)%Z
  /\ LRUCacheNum.size c = 2
  /\ LRUCacheNum.size
       (LRUCacheNum.run_store string_dec ops (LRUCacheNum.new string (Some NNaN))) = 3.
Proof.
  cbv zeta. split; [| split; reflexivity].
  exact (proj2 (@size_bound_for_number_capacity string string_dec (Some (NFin (3 # 2)))
                  [CacheOps.Set_ "a"%string (VBool true);
                   CacheOps.Set_ "b"%string (VBool true);
                   CacheOps.Set_ "c"%string (VBool true)])).
Defined.

End NumberCapacityFacts.

(** * Further properties of [hashString] *)

Lemma to_int32_shift (z : Z) : exists k : Z, to_int32 z = (z + k * 2 ^ 32)%Z.
Proof.
  exists (- ((z + 2 ^ 31) / 2 ^ 32))%Z. unfold to_int32.
  rewrite Z.mod_eq by lia. lia.
Qed.

Lemma to_int32_plus (z k : Z) : to_int32 (z + k * 2 ^ 32) = to_int32 z.
Proof.
  unfold to_int32.
  replace (z + k * 2 ^ 32 + 2 ^ 31)%Z with (z + 2 ^ 31 + k * 2 ^ 32)%Z by lia.
  now rewrite Z_mod_plus_full.
Qed.

(** One round of the loop multiplies by 31, adds the code unit and wraps:
    [(hash << 5) - hash] is [31 * hash] modulo [2 ^ 32]. *)
Lemma hash_step_times_31 (hash : Z) (c : ascii) :
  hash_step hash c = to_int32 (31 * hash + charCode c).
Proof.
  unfold hash_step. rewrite Z.land_diag, Z.shiftl_mul_pow2 by lia.
  destruct (to_int32_shift hash) as [k1 ->].
  destruct (to_int32_shift ((hash + k1 * 2 ^ 32) * 2 ^ 5)) as [k2 ->].
  replace ((hash + k1 * 2 ^ 32) * 2 ^ 5 + k2 * 2 ^ 32 - hash + charCode c)%Z
    with (31 * hash + charCode c + (32 * k1 + k2) * 2 ^ 32)%Z by lia.
  apply to_int32_plus.
Qed.

Lemma poly_hash_plus (str : string) (x k : Z) :
  exists k' : Z, poly_hash str (x + k * 2 ^ 32) = (poly_hash str x + k' * 2 ^ 32)%Z.
Proof.
  revert x k. induction str as [|c str IH]; intros x k; cbn [poly_hash].
  - now exists k.
  - replace (31 * (x + k * 2 ^ 32) + charCode c)%Z
      with (31 * x + charCode c + (31 * k) * 2 ^ 32)%Z by lia.
    apply IH.
Qed.

Lemma hash_loop_poly (str : string) (hash : Z) :
  (- 2 ^ 31 <= hash < 2 ^ 31)%Z ->
  hash_loop str hash = to_int32 (poly_hash str hash).
Proof.
  revert hash. induction str as [|c str IH]; intros hash Hh; cbn [hash_loop poly_hash].
  - symmetry. now apply to_int32_small.
  - rewrite IH by apply hash_step_range.
    rewrite hash_step_times_31.
    destruct (to_int32_shift (31 * hash + charCode c)) as [k ->].
    destruct (poly_hash_plus str (31 * hash + charCode c) k) as [k' ->].
    apply to_int32_plus.
Qed.

(** [hashString] is the 31-polynomial string hash, wrapped to a signed
    32-bit integer and written in base 36. *)
Theorem hashString_is_polynomial_hash (str : string) :
  hashString str = Number_toString36 (to_int32 (poly_hash str 0)).
Proof.
  unfold hashString. now rewrite hash_loop_poly by lia.
Qed.

Lemma digit36_not_minus (d : Z) : (0 <= d < 36)%Z -> digit36 d <> "-"%char.
Proof.
  intros Hd Heq. apply (f_equal digit_value) in Heq.
  rewrite digit_value_digit36 in Heq by exact Hd.
  vm_compute in Heq. lia.
Qed.

(** The text of a number that is not negative starts with a digit. *)
Lemma radix36_digits_head (fuel : nat) (n : Z) (acc : string) :
  (0 <= n)%Z ->
  exists (d : Z) (rest : string),
    (0 <= d < 36)%Z /\ radix36_digits (S fuel) n acc = String (digit36 d) rest.
Proof.
  revert n acc. induction fuel as [|fuel IH]; intros n acc Hn.
  - exists (n mod 36)%Z, acc. split; [apply Z.mod_pos_bound; lia |].
    cbn [radix36_digits]. cbv zeta. now destruct (n / 36 =? 0)%Z.
  - cbn [radix36_digits]. cbv zeta.
    destruct (n / 36 =? 0)%Z eqn:Hq.
    + exists (n mod 36)%Z, acc. split; [apply Z.mod_pos_bound; lia | reflexivity].
    + apply (IH (n / 36)%Z). apply Z.div_pos; lia.
Qed.

Lemma radix36_digits_length (fuel k : nat) (n : Z) (acc : string) :
  (0 <= n < 36 ^ Z.of_nat (S k))%Z ->
  String.length (radix36_digits fuel n acc) <= S k + String.length acc.
Proof.
  revert k n acc. induction fuel as [|fuel IH]; intros k n acc Hn.
  - simpl. lia.
  - cbn [radix36_digits]. cbv zeta.
    destruct (Z.eqb_spec (n / 36) 0) as [Hq|Hq].
    + simpl. lia.
    + assert (Hge : (36 <= n)%Z).
      { destruct (Z.lt_ge_cases n 36) as [Hlt|]; [| assumption].
        rewrite Z.div_small in Hq by lia. contradiction. }
      destruct k as [|k].
      * simpl in Hn. lia.
      * specialize (IH k (n / 36)%Z (String (digit36 (n mod 36)) acc)).
        simpl String.length in IH.
        assert (Hbound : (0 <= n / 36 < 36 ^ Z.of_nat (S k))%Z).
        { split; [apply Z.div_pos; lia |].
          apply Z.div_lt_upper_bound; [lia |].
          rewrite (Nat2Z.inj_succ (S k)), Z.pow_succ_r in Hn by lia. lia. }
        specialize (IH Hbound). lia.
Qed.

Lemma Number_toString36_injective (a b : Z) :
  Number_toString36 a = Number_toString36 b -> a = b.
Proof.
  assert (Hnonneg : forall x y : Z, (0 <= x)%Z -> (0 <= y)%Z ->
             Number_toString36 x = Number_toString36 y -> x = y).
  { intros x y Hx Hy Heq. apply (f_equal (fun s => value36 s 0)) in Heq.
    now rewrite !Number_toString36_value in Heq by assumption. }
  assert (Hmixed : forall x y : Z, (x < 0)%Z -> (0 <= y)%Z ->
             Number_toString36 x <> Number_toString36 y).
  { intros x y Hx Hy Heq. rewrite (Number_toString36_negative Hx) in Heq.
    unfold Number_toString36 in Heq at 2.
    destruct (Z.ltb_spec y 0); [lia |].
    destruct (radix36_digits_head (Z.to_nat (Z.log2 (Z.abs y))) EmptyString Hy)
      as (d & rest & Hd & Hhead).
    rewrite Hhead in Heq. inversion Heq as [[Hc Hr]].
    symmetry in Hc. now apply digit36_not_minus in Hc. }
  intros Heq.
  destruct (Z.lt_ge_cases a 0) as [Ha|Ha], (Z.lt_ge_cases b 0) as [Hb|Hb].
  - rewrite (Number_toString36_negative Ha), (Number_toString36_negative Hb) in Heq.
    inversion Heq as [Heq']. apply Hnonneg in Heq'; lia.
  - exfalso. exact (Hmixed a b Ha Hb Heq).
  - exfalso. symmetry in Heq. exact (Hmixed b a Hb Ha Heq).
  - now apply Hnonneg.
Qed.

Lemma Number_toString36_length (n : Z) :
  (- 2 ^ 31 <= n < 2 ^ 31)%Z -> String.length (Number_toString36 n) <= 7.
Proof.
  intros Hn. unfold Number_toString36.
  assert (Hpow : (36 ^ Z.of_nat 6 = 2176782336)%Z) by reflexivity.
  assert (Htwo : (2 ^ 31 = 2147483648)%Z) by reflexivity.
  destruct (Z.ltb_spec n 0).
  - cbn [String.length].
    assert (Hb : (0 <= - n < 36 ^ Z.of_nat 6)%Z) by lia.
    pose proof (@radix36_digits_length (S (Z.to_nat (Z.log2 (Z.abs n)))) 5 (- n) EmptyString Hb) as Hl.
    cbn [String.length Nat.add] in Hl. lia.
  - assert (Hb : (0 <= n < 36 ^ Z.of_nat 6)%Z) by lia.
    pose proof (@radix36_digits_length (S (Z.to_nat (Z.log2 (Z.abs n)))) 5 n EmptyString Hb) as Hl.
    cbn [String.length Nat.add] in Hl. lia.
Qed.

(** The key is a faithful and short name of the 32-bit hash: two strings
    get the same key exactly when their wrapped polynomial hashes are
    equal, and a key has at most seven characters. *)
Theorem hashString_names_the_hash (s1 s2 : string) :
  (hashString s1 = hashString s2
   <-> to_int32 (poly_hash s1 0) = to_int32 (poly_hash s2 0))
  /\ String.length (hashString s1) <= 7.
Proof.
  unfold hashString. rewrite !hash_loop_poly by lia. split.
  - split; [apply Number_toString36_injective | now intros ->].
  - apply Number_toString36_length. apply to_int32_range.
Qed.

(** * Further properties of the instrumented cache *)

Module TrackedMore.
Section WithKey.
Variable K : Type.
Variable K_eq_dec : forall x y : K, {x = y} + {x <> y}.

Import TrackedLRUCache.

Lemma step_base (o : CacheOps.op K) (c : TrackedLRUCache.t K) :
  base (snd (CacheOps.step K_eq_dec o c)) = CacheOps.step_store K_eq_dec o (base c).
Proof.
  destruct o as [k|k v|k| |]; simpl; auto.
  unfold TrackedLRUCache.get.
  destruct (LRUCache.get K_eq_dec k (base c)) as [v b]. simpl.
  now destruct (negb (is_undefined v)).
Qed.

Lemma step_answer (k : K) (c : TrackedLRUCache.t K) :
  fst (TrackedLRUCache.get K_eq_dec k c) = fst (LRUCache.get K_eq_dec k (base c)).
Proof.
  unfold TrackedLRUCache.get.
  destruct (LRUCache.get K_eq_dec k (base c)) as [v b]. simpl.
  now destruct (negb (is_undefined v)).
Qed.

(** Counting changes nothing in the store: after any operations the
    bindings, their order and the capacity of an instrumented cache are
    those of the plain store run through the same operations, and every
    [get] answers what the plain [get] answers. *)
Theorem tracking_is_transparent (ops : list (CacheOps.op K)) (c : TrackedLRUCache.t K)
    (k : K) :
  base (snd (CacheOps.run K_eq_dec ops c)) = CacheOps.run_store K_eq_dec ops (base c)
  /\ fst (TrackedLRUCache.get K_eq_dec k (snd (CacheOps.run K_eq_dec ops c)))
     = fst (LRUCache.get K_eq_dec k (CacheOps.run_store K_eq_dec ops (base c))).
Proof.
  assert (Hbase : forall (l : list (CacheOps.op K)) (c0 : TrackedLRUCache.t K),
             base (snd (CacheOps.run K_eq_dec l c0))
             = CacheOps.run_store K_eq_dec l (base c0)).
  { unfold CacheOps.run_store. induction l as [|o l IH]; intros c0; simpl; auto.
    pose proof (step_base o c0) as Hs.
    destruct (CacheOps.step K_eq_dec o c0) as [s c1]. simpl in Hs.
    specialize (IH c1).
    destruct (CacheOps.run K_eq_dec l c1) as [tr c2]. simpl in *.
    now rewrite IH, Hs. }
  split; [apply Hbase |]. now rewrite step_answer, Hbase.
Qed.

Lemma counters_after_run (ops : list (CacheOps.op K)) (c : TrackedLRUCache.t K) :
  (0 <= hits c)%Z -> (0 <= misses c)%Z ->
  let c' := snd (CacheOps.run K_eq_dec ops c) in
  (0 <= hits c')%Z /\ (0 <= misses c')%Z
  /\ (hits c' + misses c' <= hits c + misses c + Further.count_gets ops)%Z
  /\ (Further.has_reset ops = false ->
      (hits c' + misses c' = hits c + misses c + Further.count_gets ops)%Z).
Proof.
  cbv zeta. unfold Further.count_gets. revert c.
  induction ops as [|o ops IH]; intros c Hh Hm; simpl.
  - repeat split; lia.
  - destruct (CacheOps.step K_eq_dec o c) as [s c1] eqn:Hstep.
    specialize (IH c1).
    destruct (CacheOps.run K_eq_dec ops c1) as [tr c2]. simpl in *.
    destruct o as [k|k v|k| |]; simpl in *.
    + unfold TrackedLRUCache.get in Hstep.
      destruct (LRUCache.get K_eq_dec k (base c)) as [v b].
      destruct (negb (is_undefined v)); inversion Hstep; subst; simpl in *;
        destruct IH as (H1 & H2 & H3 & H4); try lia;
        repeat split; try lia; intros Hr; specialize (H4 Hr); lia.
    + inversion Hstep; subst; simpl in *. apply IH; lia.
    + inversion Hstep; subst. apply IH; lia.
    + inversion Hstep; subst; simpl in *. apply IH; lia.
    + inversion Hstep; subst; simpl in *.
      destruct IH as (H1 & H2 & H3 & H4); try lia.
Qed.

Lemma hitRate_bounds (c : TrackedLRUCache.t K) :
  (0 <= hits c)%Z -> (0 <= misses c)%Z -> (0 <= hitRate c <= 1)%Q.
Proof.
  intros Hh Hm. unfold hitRate.
  destruct (Z.eqb_spec (hits c + misses c) 0) as [Hz|Hnz].
  - split; [apply Qle_refl | discriminate].
  - assert (Hpos : (0 < inject_Z (hits c + misses c))%Q).
    { rewrite <- (Zlt_Qlt 0). lia. }
    split.
    + apply Qle_shift_div_l; [exact Hpos |].
      rewrite Qmult_0_l. rewrite <- (Zle_Qle 0). exact Hh.
    + apply Qle_shift_div_r; [exact Hpos |].
      rewrite Qmult_1_l. rewrite <- Zle_Qle. lia.
Qed.

(** From a new cache, whatever the operations: the counters are not
    negative, together they count at most the [get] calls made, exactly
    those when the statistics were never reset, and the hit rate lies
    between 0 and 1. *)
Theorem counters_count_the_gets (ops : list (CacheOps.op K)) (n : option Z) :
  let c := snd (CacheOps.run K_eq_dec ops (TrackedLRUCache.new K n)) in
  (0 <= hits c)%Z /\ (0 <= misses c)%Z
  /\ (hits c + misses c <= Further.count_gets ops)%Z
  /\ (if Further.has_reset ops then True
      else (hits c + misses c = Further.count_gets ops)%Z)
  /\ (0 <= hitRate c <= 1)%Q.
Proof.
  cbv zeta.
  destruct (@counters_after_run ops (TrackedLRUCache.new K n)) as (H1 & H2 & H3 & H4);
    simpl; try lia.
  simpl in H3, H4.
  repeat split; try assumption.
  - destruct (Further.has_reset ops); [exact I | now apply H4].
  - now apply hitRate_bounds.
  - now apply hitRate_bounds.
Qed.
End WithKey.
End TrackedMore.

(** * Further properties of the adapters *)

(** ** What a call does to the two caches *)

Lemma parse_compute_effect `{Engine} (src : string) (options _reviver : value)
    (cacheKey : string) (w : world) :
  truthy _reviver = false ->
  let out := parse_compute src options _reviver cacheKey w in
  parseCache (snd out)
  = match fst out with
    | Ok v => TrackedLRUCache.set string_dec cacheKey v (parseCache w)
    | Throw _ => parseCache w
    end
  /\ stringifyCache (snd out) = stringifyCache w.
Proof.
  intros Hr. cbv zeta.
  unfold parse_compute, bind, lift, ret, throw, warn_all, parseCache_set.
  rewrite Hr. simpl.
  destruct (parseDocument src options) as [[d|]|e]; simpl; auto.
  destruct (errors d) as [|e0 es]; simpl.
  - destruct (toJS d _reviver options); simpl; auto.
  - destruct (negb (String.eqb (logLevel d) "silent")); simpl; auto.
    destruct (toJS (clear_errors d) _reviver options); simpl; auto.
Qed.

(** [parse] works on the parse cache through [get] and [set] only, at
    most once each, and leaves the stringify cache alone. *)
Lemma parse_effect `{Engine} (src : string) (reviver options : value) (w : world) :
  stringifyCache (snd (parse src reviver options w)) = stringifyCache w
  /\ exists ops : list (CacheOps.op string),
       TrackedLRUCache.base (parseCache (snd (parse src reviver options w)))
       = CacheOps.run_store string_dec ops (TrackedLRUCache.base (parseCache w)).
Proof.
  destruct (is_function reviver) eqn:Hf.
  - assert (Htr : truthy (parse_reviver reviver) = true).
    { unfold parse_reviver. rewrite Hf. now destruct reviver. }
    destruct (@parse_compute_with_reviver _ src (parse_options reviver options)
                (parse_reviver reviver)
                (parse_cacheKey src (parse_options reviver options) (parse_reviver reviver))
                w Htr) as [Hp Hs].
    unfold parse. rewrite Htr. simpl. split; [exact Hs |].
    exists []. now rewrite Hp.
  - destruct (parse_without_reviver src reviver options w Hf) as [_ ->]. cbv zeta.
    set (key := parse_cacheKey src (parse_options reviver options) VUndefined).
    pose proof (TrackedMore.step_base string_dec (CacheOps.Get key) (parseCache w)) as Hg.
    simpl in Hg.
    destruct (TrackedLRUCache.get string_dec key (parseCache w)) as [cached c].
    simpl in Hg.
    destruct (negb (is_undefined cached)); simpl.
    + split; [reflexivity |]. exists [CacheOps.Get key]. simpl. exact Hg.
    + destruct (@parse_compute_effect _ src (parse_options reviver options) VUndefined key
                  (mk_world c (stringifyCache w) (warn_calls w)) eq_refl) as [Hp Hs].
      split; [exact Hs |]. rewrite Hp.
      destruct (fst (parse_compute _ _ _ _ _)) as [v|e]; simpl.
      * exists [CacheOps.Get key; CacheOps.Set_ key v]. simpl. now rewrite Hg.
      * exists [CacheOps.Get key]. simpl. exact Hg.
Qed.

Lemma stringify_cases `{Engine} (v replacer options : value) (w : world) :
  (spec_stringify_cacheable v replacer = true
   /\ stringify v replacer options w
      = stringify_block v (normalize_options (stringify_options replacer options)) w)
  \/ (spec_stringify_cacheable v replacer = false
      /\ snd (stringify v replacer options w) = w).
Proof.
  unfold spec_stringify_cacheable, stringify, stringify_block.
  fold (has_replacer replacer). unfold stringify_replacer.
  destruct (has_replacer replacer) eqn:Hr.
  - right. split; [reflexivity |].
    assert (Ht : truthy replacer = true).
    { unfold has_replacer in Hr. destruct replacer; try discriminate; reflexivity. }
    rewrite Ht. simpl.
    destruct (is_undefined v && _); simpl; [reflexivity |].
    apply stringify_direct_frame.
  - simpl negb. simpl truthy. cbv iota.
    set (options' := normalize_options (stringify_options replacer options)).
    assert (Hdirect : forall u : value, snd (stringify_direct u VNull options' w) = w)
      by (intros u; apply stringify_direct_frame).
    destruct v as [| |b|n|s|f|items|fields|d];
      cbn -[stringify_direct stringify_cacheKey];
      try (destruct (truthy (get_prop _ _)); cbn -[stringify_direct]);
      auto.
    destruct n; cbn -[stringify_direct stringify_cacheKey]; auto.
Qed.

Lemma stringify_block_eq `{Engine} (v options : value) (w : world) :
  stringify_block v options w
  = let key := stringify_cacheKey v options in
    match TrackedLRUCache.get string_dec key (stringifyCache w) with
    | (cached, c) =>
        let w1 := mk_world (parseCache w) c (warn_calls w) in
        if negb (is_undefined cached) then (Ok cached, w1)
        else match new_Document_toString v VNull options with
             | Ok s =>
                 (Ok (VStr s),
                  mk_world (parseCache w)
                           (TrackedLRUCache.set string_dec key (VStr s) c)
                           (warn_calls w))
             | Throw e => (Throw e, w1)
             end
    end.
Proof.
  unfold stringify_block, bind, stringifyCache_get, stringifyCache_set, lift, ret.
  cbv zeta.
  destruct (TrackedLRUCache.get string_dec _ (stringifyCache w)) as [cached c].
  destruct (negb (is_undefined cached)); [reflexivity |].
  now destruct (new_Document_toString v VNull options).
Qed.

(** [stringify] works on the stringify cache through [get] and [set]
    only, and leaves the parse cache and the warnings alone. *)
Lemma stringify_effect `{Engine} (v replacer options : value) (w : world) :
  parseCache (snd (stringify v replacer options w)) = parseCache w
  /\ warn_calls (snd (stringify v replacer options w)) = warn_calls w
  /\ exists ops : list (CacheOps.op string),
       TrackedLRUCache.base (stringifyCache (snd (stringify v replacer options w)))
       = CacheOps.run_store string_dec ops (TrackedLRUCache.base (stringifyCache w)).
Proof.
  destruct (stringify_cases v replacer options w) as [[_ ->]|[_ ->]].
  - rewrite stringify_block_eq. cbv zeta.
    set (key := stringify_cacheKey v _).
    pose proof (TrackedMore.step_base string_dec (CacheOps.Get key) (stringifyCache w)) as Hg.
    simpl in Hg.
    destruct (TrackedLRUCache.get string_dec key (stringifyCache w)) as [cached c].
    simpl in Hg.
    destruct (negb (is_undefined cached)); simpl.
    + repeat split. exists [CacheOps.Get key]. exact Hg.
    + destruct (new_Document_toString v VNull _) as [s|e]; simpl; repeat split.
      * exists [CacheOps.Get key; CacheOps.Set_ key (VStr s)]. simpl. now rewrite Hg.
      * exists [CacheOps.Get key]. exact Hg.
  - repeat split. now exists [].
Qed.

Lemma run_call_bounded `{Engine} (c : api_call) (w : world) :
  world_bounded w -> world_bounded (run_call c w).
Proof.
  unfold world_bounded. intros (Hp & Hpm & Hs & Hsm).
  destruct c as [src reviver options|v replacer options|]; simpl.
  - destruct (parse_effect src reviver options w) as [-> [ops ->]].
    assert (Hcap : (1 <= LRUCache.maxSize (TrackedLRUCache.base (parseCache w)))%Z) by lia.
    destruct (@LRUFacts.bounded_run string string_dec ops _ Hcap Hp) as [Hb Hm].
    repeat split; try apply Hb; try apply Hs; congruence.
  - destruct (stringify_effect v replacer options w) as (-> & _ & [ops ->]).
    assert (Hcap : (1 <= LRUCache.maxSize (TrackedLRUCache.base (stringifyCache w)))%Z) by lia.
    destruct (@LRUFacts.bounded_run string string_dec ops _ Hcap Hs) as [Hb Hm].
    repeat split; try apply Hb; try apply Hp; congruence.
  - repeat split; simpl; try constructor; try lia; assumption.
Qed.

(** Whatever calls of [parse], [stringify] and [clearCaches] a process
    makes, neither cache ever holds more than 2000 entries or two entries
    under one key, so [getCacheStats] never reports a larger size. *)
Theorem caches_never_exceed_2000 `{Engine} (calls : list api_call) :
  let w := run_calls calls initial_world in
  TrackedLRUCache.s_size (fst (getCacheStats w)) <= 2000
  /\ TrackedLRUCache.s_size (snd (getCacheStats w)) <= 2000
  /\ NoDup (JSMap.keys (LRUCache.cache (TrackedLRUCache.base (parseCache w))))
  /\ NoDup (JSMap.keys (LRUCache.cache (TrackedLRUCache.base (stringifyCache w)))).
Proof.
  cbv zeta.
  assert (Hgen : forall w0 : world, world_bounded w0 ->
             world_bounded (run_calls calls w0)).
  { unfold run_calls. induction calls as [|c calls IH]; intros w0 Hw; simpl; auto.
    apply IH. now apply run_call_bounded. }
  destruct (Hgen initial_world) as ([Hpw Hps] & Hpm & [Hsw Hss] & Hsm).
  { repeat split; simpl; try constructor; lia. }
  simpl. unfold TrackedLRUCache.size.
  rewrite Hpm in Hps. rewrite Hsm in Hss.
  repeat split; try assumption; lia.
Qed.

(** ** Errors, warnings and the cache *)

Lemma parse_on_miss `{Engine} (src : string) (reviver options : value) (w : world) :
  is_function reviver = false ->
  is_undefined (JSMap.get string_dec
                  (parse_cacheKey src (parse_options reviver options) VUndefined)
                  (LRUCache.cache (TrackedLRUCache.base (parseCache w)))) = true ->
  parse src reviver options w
  = parse_compute src (parse_options reviver options) VUndefined
      (parse_cacheKey src (parse_options reviver options) VUndefined) (after_miss w).
Proof.
  intros Hf Hu. destruct (parse_without_reviver src reviver options w Hf) as [_ ->].
  cbv zeta. now rewrite (TrackedFacts.tracked_get_undefined string_dec _ _ Hu).
Qed.

(** A source whose document carries errors, parsed without reviver and
    not answered from the cache: [parse] logs the warnings of the
    document, then throws its first error unless the log level is
    [silent]; nothing is stored, the miss is counted.  Under [silent] the
    errors are dropped and the call returns what [toJS] returns. *)
Theorem parse_errors_follow_the_log_level `{Engine} (src : string)
    (reviver options : value) (w : world) (d : document) (e : yaml_error)
    (es : list yaml_error)
    (Hreviver : is_function reviver = false)
    (Hmiss : is_undefined (JSMap.get string_dec
                 (parse_cacheKey src (parse_options reviver options) VUndefined)
                 (LRUCache.cache (TrackedLRUCache.base (parseCache w)))) = true)
    (Hdoc : parseDocument src (parse_options reviver options) = Ok (Some d))
    (Herrors : errors d = e :: es) :
  let out := parse src reviver options w in
  warn_calls (snd out) = warn_calls w ++ map (fun x => (logLevel d, x)) (warnings d)
  /\ if String.eqb (logLevel d) "silent"
     then fst out = toJS (clear_errors d) VUndefined (parse_options reviver options)
     else fst out = Throw (ThrownError e)
          /\ parseCache (snd out) = parseCache (after_miss w).
Proof.
  cbv zeta. rewrite (parse_on_miss src reviver options w Hreviver Hmiss).
  unfold parse_compute, bind, lift, ret, throw, warn_all, parseCache_set.
  rewrite Hdoc, Herrors. simpl.
  destruct (String.eqb (logLevel d) "silent"); simpl.
  - destruct (toJS (clear_errors d) VUndefined (parse_options reviver options));
      simpl; auto.
  - auto.
Qed.

Lemma parse_errors_witness :
  fst (@parse sample_engine broken_source VUndefined VUndefined initial_world)
  = Throw (ThrownError (mk_error [4; 5]%Z "MISSING_CHAR" "Flow sequence must end with a ]"))
  /\ parseCache (snd (@parse sample_engine broken_source VUndefined VUndefined initial_world))
     = parseCache (after_miss initial_world).
Proof.
  exact (proj2 (@parse_errors_follow_the_log_level sample_engine broken_source
                  VUndefined VUndefined initial_world
                  (mk_document 4 [mk_error [4; 5]%Z "MISSING_CHAR"
                                    "Flow sequence must end with a ]"]
                               [] "warn" [0; 4; 4]%Z)
                  (mk_error [4; 5]%Z "MISSING_CHAR" "Flow sequence must end with a ]")
                  [] eq_refl eq_refl eq_refl eq_refl)).
Defined.

Lemma parseDocument_several `{Engine} (source : string) (options : value)
    (first second : document) (rest : list document) :
  is_null options = false ->
  compose source (if is_undefined options then VObj [] else options)
  = first :: second :: rest ->
  String.eqb (logLevel first) "silent" = false ->
  parseDocument source options
  = Ok (Some (finished source (if is_undefined options then VObj [] else options)
                (push_error first (multiple_docs_error second)))).
Proof.
  intros Hnull Hdocs Hlevel. unfold parseDocument, finished.
  rewrite Hdocs, loop_two_or_more, Hlevel.
  set (options' := if is_undefined options then VObj [] else options).
  assert (Hnn : nullish options' = false).
  { unfold options', nullish. destruct options; try discriminate; reflexivity. }
  destruct (parseOptions options') as [[lineCounter prettyErrors]|e] eqn:Hpo.
  - rewrite (parseOptions_lineCounter _ Hpo). now destruct prettyErrors.
  - unfold parseOptions in Hpo. rewrite Hnn in Hpo. discriminate.
Qed.

Lemma finished_fields `{Engine} (source : string) (options : value) (d : document) :
  logLevel (finished source options d) = logLevel d
  /\ doc_id (finished source options d) = doc_id d
  /\ range (finished source options d) = range d
  /\ List.length (errors (finished source options d)) = List.length (errors d)
  /\ (is_false (get_prop options "prettyErrors") = true ->
      finished source options d = d).
Proof.
  unfold finished, parseOptions.
  destruct (nullish options); [repeat split |].
  destruct (is_false (get_prop options "prettyErrors")); simpl;
    repeat split; try discriminate.
  apply length_map.
Qed.

(** A source of several documents, parsed without reviver and not
    answered from the cache, when the first document has no error of its
    own and its log level is not [silent]: [parse] throws the
    multiple-documents error that [parseDocument] attached, and nothing is
    stored.  With [prettyErrors: false] the error thrown is the one built
    from the range of the second document. *)
Theorem parse_rejects_several_documents `{Engine} (src : string)
    (reviver options : value) (w : world) (first second : document)
    (rest : list document)
    (Hreviver : is_function reviver = false)
    (Hmiss : is_undefined (JSMap.get string_dec
                 (parse_cacheKey src (parse_options reviver options) VUndefined)
                 (LRUCache.cache (TrackedLRUCache.base (parseCache w)))) = true)
    (Hnull : is_null (parse_options reviver options) = false)
    (Hdocs : compose src (if is_undefined (parse_options reviver options)
                          then VObj [] else parse_options reviver options)
             = first :: second :: rest)
    (Hclean : errors first = [])
    (Hlevel : String.eqb (logLevel first) "silent" = false) :
  let options' := if is_undefined (parse_options reviver options)
                  then VObj [] else parse_options reviver options in
  exists e : yaml_error,
    errors (finished src options' (push_error first (multiple_docs_error second))) = [e]
    /\ fst (parse src reviver options w) = Throw (ThrownError e)
    /\ parseCache (snd (parse src reviver options w)) = parseCache (after_miss w)
    /\ (is_false (get_prop options' "prettyErrors") = true ->
        e = multiple_docs_error second).
Proof.
  cbv zeta.
  set (options' := if is_undefined (parse_options reviver options)
                   then VObj [] else parse_options reviver options).
  set (d := finished src options' (push_error first (multiple_docs_error second))).
  assert (Herr : exists e, errors d = [e]
                 /\ (is_false (get_prop options' "prettyErrors") = true ->
                     e = multiple_docs_error second)).
  { unfold d, finished, parseOptions.
    destruct (nullish options').
    - exists (multiple_docs_error second). simpl. rewrite Hclean. auto.
    - destruct (is_false (get_prop options' "prettyErrors")); simpl; rewrite Hclean; simpl.
      + eauto.
      + eexists. split; [reflexivity | discriminate]. }
  destruct Herr as (e & Herr & Hplain). exists e.
  split; [exact Herr |].
  assert (Hl : logLevel d = logLevel first)
    by exact (proj1 (finished_fields src options'
                       (push_error first (multiple_docs_error second)))).
  rewrite (parse_on_miss src reviver options w Hreviver Hmiss).
  unfold parse_compute, bind, lift, ret, throw, warn_all.
  rewrite (parseDocument_several src _ Hnull Hdocs Hlevel). fold options'. fold d.
  rewrite Herr, Hl, Hlevel. simpl. auto.
Qed.

Lemma parse_rejects_several_documents_witness :
  fst (@parse sample_engine two_docs_source VUndefined VUndefined initial_world)
  = Throw (ThrownError (mk_error [11; 22]%Z "MULTIPLE_DOCS" MULTIPLE_DOCS_message)).
Proof.
  destruct (@parse_rejects_several_documents sample_engine two_docs_source
              VUndefined VUndefined initial_world
              (mk_document 1 [] [] "warn" [0; 11; 11]%Z)
              (mk_document 2 [] [] "warn" [11; 22; 22]%Z) []
              eq_refl eq_refl eq_refl eq_refl eq_refl eq_refl)
    as (e & He & Hthrow & _).
  simpl in He. inversion He; subst. exact Hthrow.
Defined.



(** After a call without reviver that returned [v], the key of the call
    is bound to [v]. *)
Lemma bound_after_parse `{Engine} (src : string) (reviver options : value)
    (w : world) (v : value) :
  is_function reviver = false ->
  fst (parse src reviver options w) = Ok v ->
  is_undefined v = false ->
  JSMap.get string_dec (parse_cacheKey src (parse_options reviver options) VUndefined)
    (LRUCache.cache (TrackedLRUCache.base (parseCache (snd (parse src reviver options w)))))
  = v.
Proof.
  intros Hf Hfirst Hv.
  set (key := parse_cacheKey src (parse_options reviver options) VUndefined).
  destruct (is_undefined (JSMap.get string_dec key
              (LRUCache.cache (TrackedLRUCache.base (parseCache w))))) eqn:Hu.
  - revert Hfirst. rewrite (parse_on_miss src reviver options w Hf Hu). fold key.
    intros Hfirst.
    rewrite (@parse_compute_stores _ src _ VUndefined key _ v eq_refl Hfirst).
    apply TrackedFacts.get_after_set.
  - destruct (parse_hit src reviver options w Hf) as (Hres & _ & _ & Hkeep).
    + destruct (parse_without_reviver src reviver options w Hf) as [-> _]. exact Hu.
    + destruct (parse_without_reviver src reviver options w Hf) as [Hr _].
      rewrite Hr in *. fold key in Hkeep. rewrite Hkeep.
      rewrite Hres in Hfirst. now inversion Hfirst.
Qed.

(** Two calls without reviver whose keys are equal share one entry: once
    the first has returned a value, the second returns that value from
    the cache, counts a hit and logs nothing, whatever its own source and
    options are.  This is what a collision of [hashString] leads to. *)
Theorem equal_keys_share_the_entry `{Engine} (src1 src2 : string)
    (reviver1 options1 reviver2 options2 : value) (w : world) (v : value)
    (Hreviver1 : is_function reviver1 = false)
    (Hreviver2 : is_function reviver2 = false)
    (Hkey : parse_cacheKey src1 (parse_options reviver1 options1) VUndefined
            = parse_cacheKey src2 (parse_options reviver2 options2) VUndefined)
    (Hfirst : fst (parse src1 reviver1 options1 w) = Ok v)
    (Hdefined : is_undefined v = false) :
  let w1 := snd (parse src1 reviver1 options1 w) in
  let out := parse src2 reviver2 options2 w1 in
  fst out = Ok v
  /\ TrackedLRUCache.hits (parseCache (snd out))
     = (TrackedLRUCache.hits (parseCache w1) + 1)%Z
  /\ TrackedLRUCache.misses (parseCache (snd out)) = TrackedLRUCache.misses (parseCache w1)
  /\ warn_calls (snd out) = warn_calls w1.
Proof.
  cbv zeta.
  pose proof (bound_after_parse src1 reviver1 options1 w Hreviver1 Hfirst Hdefined) as Hb.
  rewrite Hkey in Hb.
  destruct (parse_without_reviver src2 reviver2 options2
              (snd (parse src1 reviver1 options1 w)) Hreviver2) as [_ ->].
  cbv zeta.
  assert (Hu : is_undefined (JSMap.get string_dec
                 (parse_cacheKey src2 (parse_options reviver2 options2) VUndefined)
                 (LRUCache.cache (TrackedLRUCache.base
                    (parseCache (snd (parse src1 reviver1 options1 w)))))) = false)
    by now rewrite Hb.
  rewrite (TrackedFacts.tracked_get_defined string_dec _ _ Hu).
  rewrite Hu, Hb. simpl. auto.
Qed.

(** ["Aa"] and ["BB"] have the same hash, hence the same key. *)
Lemma equal_keys_witness :
  let w1 := snd (@parse sample_engine "Aa" VUndefined VUndefined initial_world) in
  "Aa"%string <> "BB"%string
  /\ fst (@parse sample_engine "BB" VUndefined VUndefined w1)
     = fst (@parse sample_engine "Aa" VUndefined VUndefined initial_world)
  /\ TrackedLRUCache.hits
       (parseCache (snd (@parse sample_engine "BB" VUndefined VUndefined w1))) = 1%Z.
Proof.
  cbv zeta.
  destruct (@equal_keys_share_the_entry sample_engine "Aa" "BB"
              VUndefined VUndefined VUndefined VUndefined initial_world
              (VObj [("doc"%string, VNum (NFin (inject_Z 0)))])
              eq_refl eq_refl eq_refl eq_refl eq_refl) as (Hres & Hhits & _).
  split; [discriminate | split].
  - rewrite Hres. reflexivity.
  - rewrite Hhits. reflexivity.
Defined.

(** After [clearCaches] a call of [parse] without reviver is never
    answered from the cache: it counts a miss and no hit, whatever was
    stored before, and leaves at most its own entry in the cache. *)
Theorem clearCaches_forces_a_miss `{Engine} (src : string) (reviver options : value)
    (w : world) (Hreviver : is_function reviver = false) :
  let out := parse src reviver options (clearCaches w) in
  TrackedLRUCache.misses (parseCache (snd out))
  = (TrackedLRUCache.misses (parseCache w) + 1)%Z
  /\ TrackedLRUCache.hits (parseCache (snd out)) = TrackedLRUCache.hits (parseCache w)
  /\ TrackedLRUCache.size (parseCache (snd out)) <= 1.
Proof.
  cbv zeta.
  rewrite (parse_on_miss src reviver options (clearCaches w) Hreviver eq_refl).
  set (key := parse_cacheKey src (parse_options reviver options) VUndefined).
  destruct (@parse_compute_effect _ src (parse_options reviver options) VUndefined key
              (after_miss (clearCaches w)) eq_refl) as [-> _].
  destruct (fst (parse_compute _ _ _ _ _)) as [v|e]; simpl.
  - repeat split.
    unfold TrackedLRUCache.size, LRUCache.size, LRUCache.set. simpl.
    destruct (LRUCache.maxSize _ <=? 0)%Z; simpl; lia.
  - repeat split. unfold TrackedLRUCache.size, LRUCache.size. simpl. lia.
Qed.

Lemma clearCaches_forces_a_miss_witness :
  let w1 := snd (@parse sample_engine "a: 1" VUndefined VUndefined initial_world) in
  TrackedLRUCache.misses
    (parseCache (snd (@parse sample_engine "a: 1" VUndefined VUndefined (clearCaches w1))))
  = 2%Z.
Proof.
  cbv zeta.
  destruct (@clearCaches_forces_a_miss sample_engine "a: 1" VUndefined VUndefined
              (snd (@parse sample_engine "a: 1" VUndefined VUndefined initial_world))
              eq_refl) as (Hm & _).
  rewrite Hm. reflexivity.
Defined.

(** ** Repeated calls of [stringify] *)

Lemma stringify_block_hit `{Engine} (v options : value) (w : world) :
  let key := stringify_cacheKey v options in
  is_undefined (JSMap.get string_dec key
                  (LRUCache.cache (TrackedLRUCache.base (stringifyCache w)))) = false ->
  stringify_block v options w
  = (Ok (JSMap.get string_dec key
           (LRUCache.cache (TrackedLRUCache.base (stringifyCache w)))),
     mk_world (parseCache w)
              (TrackedLRUCache.mk
                 (snd (LRUCache.get string_dec key (TrackedLRUCache.base (stringifyCache w))))
                 (TrackedLRUCache.hits (stringifyCache w) + 1)
                 (TrackedLRUCache.misses (stringifyCache w)))
              (warn_calls w)).
Proof.
  cbv zeta. intros Hu. rewrite stringify_block_eq. cbv zeta.
  rewrite (TrackedFacts.tracked_get_defined string_dec _ _ Hu).
  now rewrite Hu.
Qed.

Lemma bound_after_stringify_block `{Engine} (v options : value) (w : world)
    (r : value) :
  fst (stringify_block v options w) = Ok r ->
  JSMap.get string_dec (stringify_cacheKey v options)
    (LRUCache.cache (TrackedLRUCache.base (stringifyCache (snd (stringify_block v options w)))))
  = r
  /\ is_undefined r = false.
Proof.
  set (key := stringify_cacheKey v options).
  destruct (is_undefined (JSMap.get string_dec key
              (LRUCache.cache (TrackedLRUCache.base (stringifyCache w))))) eqn:Hu.
  - rewrite stringify_block_eq. cbv zeta. fold key.
    rewrite (TrackedFacts.tracked_get_undefined string_dec key _ Hu). simpl.
    destruct (new_Document_toString v VNull options) as [s|e]; simpl; [| discriminate].
    intros Hr. inversion Hr; subst. split; [apply JSMapFacts.get_set_same | reflexivity].
  - pose proof (TrackedFacts.get_after_get string_dec key (stringifyCache w) Hu) as Hkeep.
    rewrite (TrackedFacts.tracked_get_defined string_dec key _ Hu) in Hkeep.
    rewrite (stringify_block_hit v options w Hu). fold key. simpl in *.
    intros Hr. inversion Hr; subst. split; [exact Hkeep | exact Hu].
Qed.

(** A cacheable call of [stringify] that returned a text: the same call
    made next returns the same text from the cache, counts one hit and
    no miss, and does not ask the engine. *)
Theorem repeated_stringify_hits `{Engine} (v replacer options : value) (w : world)
    (r : value)
    (Hcacheable : spec_stringify_cacheable v replacer = true)
    (Hfirst : fst (stringify v replacer options w) = Ok r) :
  let w1 := snd (stringify v replacer options w) in
  let out := stringify v replacer options w1 in
  fst out = Ok r
  /\ TrackedLRUCache.hits (stringifyCache (snd out))
     = (TrackedLRUCache.hits (stringifyCache w1) + 1)%Z
  /\ TrackedLRUCache.misses (stringifyCache (snd out))
     = TrackedLRUCache.misses (stringifyCache w1).
Proof.
  cbv zeta.
  set (options' := normalize_options (stringify_options replacer options)).
  assert (Hblock : forall w0, stringify v replacer options w0 = stringify_block v options' w0).
  { intros w0. destruct (stringify_cases v replacer options w0) as [[_ Hb]|[Hn _]];
      [exact Hb | congruence]. }
  rewrite !Hblock in *.
  destruct (bound_after_stringify_block v options' w Hfirst) as [Hb Hd].
  assert (Hu : is_undefined (JSMap.get string_dec (stringify_cacheKey v options')
                 (LRUCache.cache (TrackedLRUCache.base
                    (stringifyCache (snd (stringify_block v options' w)))))) = false)
    by now rewrite Hb.
  rewrite (stringify_block_hit v options' _ Hu). simpl. rewrite Hb. auto.
Qed.

Lemma repeated_stringify_witness :
  let w1 := snd (@stringify sample_engine (VStr "a") VUndefined VUndefined initial_world) in
  let out := @stringify sample_engine (VStr "a") VUndefined VUndefined w1 in
  fst out = Ok (VStr ("text" ++ newline))
  /\ TrackedLRUCache.hits (stringifyCache (snd out)) = 1%Z
  /\ TrackedLRUCache.misses (stringifyCache (snd out)) = 1%Z.
Proof.
  cbv zeta.
  destruct (@repeated_stringify_hits sample_engine (VStr "a") VUndefined VUndefined
              initial_world (VStr ("text" ++ newline)) eq_refl eq_refl)
    as (Hres & Hh & Hm).
  split; [exact Hres | split].
  - rewrite Hh. reflexivity.
  - rewrite Hm. reflexivity.
Defined.

(** ** The options of [stringify], all cases *)

(** Whatever string or number is given as options, other than [NaN], the
    options handed on are [undefined] or an indent that is an integer from
    1 to 8; anything else is passed through untouched. *)
Theorem normalized_indent_is_1_to_8 (options : value) :
  match options with
  | VNum NNaN => normalize_options options = VObj [("indent"%string, VNum NNaN)]
  | VStr _ | VNum _ =>
      normalize_options options = VUndefined
      \/ exists k : Z,
           (1 <= k <= 8)%Z
           /\ normalize_options options
              = VObj [("indent"%string, VNum (NFin (inject_Z k)))]
  | _ => normalize_options options = options
  end.
Proof.
  assert (Hfin : forall q : Q,
             normalize_options (VNum (NFin q)) = VUndefined
             \/ exists k : Z,
                  (1 <= k <= 8)%Z
                  /\ normalize_options (VNum (NFin q))
                     = VObj [("indent"%string, VNum (NFin (inject_Z k)))]).
  { intros q. unfold normalize_options. simpl string_to_length.
    rewrite number_to_indent_finite. unfold indent_for.
    set (r := Qfloor (q + (1 # 2))%Q).
    destruct (Z.ltb_spec r 1); [now left |].
    destruct (Z.ltb_spec 8 r); right; [exists 8%Z | exists r]; split; auto; lia. }
  destruct options as [| |b|n|s|f|items|fields|d]; try reflexivity.
  - destruct n; try apply Hfin; try (left; reflexivity); try reflexivity.
    right. exists 8%Z. split; [lia | reflexivity].
  - apply (Hfin (inject_Z (Z.of_nat (String.length s)))).
Qed.

(** ** [parseDocument] and [parseAllDocuments] on ordinary input *)

(** A source of exactly one document: [parseDocument] returns it without
    adding an error, having taken one document from the generator; its
    errors and warnings are prettified unless [prettyErrors] is [false],
    in which case the document is returned as composed.  Options that are
    [null] make the call throw a [TypeError]. *)
Theorem parseDocument_single_document `{Engine} (source : string) (options : value)
    (d : document)
    (Hoptions : is_null options = false)
    (Hdocs : compose source (if is_undefined options then VObj [] else options) = [d]) :
  let options' := if is_undefined options then VObj [] else options in
  parseDocument source options = Ok (Some (finished source options' d))
  /\ parseDocument_consumed source options = 1
  /\ List.length (errors (finished source options' d)) = List.length (errors d)
  /\ (is_false (get_prop options' "prettyErrors") = true ->
      parseDocument source options = Ok (Some d))
  /\ parseDocument source VNull = Throw TypeError.
Proof.
  cbv zeta.
  set (options' := if is_undefined options then VObj [] else options) in *.
  assert (Hnn : nullish options' = false).
  { unfold options', nullish. destruct options; try discriminate; reflexivity. }
  assert (Hres : parseDocument source options = Ok (Some (finished source options' d))).
  { unfold parseDocument, finished. fold options'. rewrite Hdocs. simpl.
    destruct (parseOptions options') as [[lineCounter prettyErrors]|e] eqn:Hpo.
    - rewrite (parseOptions_lineCounter _ Hpo). now destruct prettyErrors.
    - unfold parseOptions in Hpo. rewrite Hnn in Hpo. discriminate. }
  split; [exact Hres | split; [| split; [| split]]].
  - unfold parseDocument_consumed. fold options'. now rewrite Hdocs.
  - apply finished_fields.
  - intros Hp. rewrite Hres.
    now rewrite (proj2 (proj2 (proj2 (proj2 (finished_fields source options' d)))) Hp).
  - reflexivity.
Qed.

Lemma parseDocument_single_witness :
  @parseDocument sample_engine "a: 1" VUndefined
  = Ok (Some (mk_document 0 [] [] "warn" [0; 4; 4]%Z))
  /\ @parseDocument_consumed sample_engine "a: 1" VUndefined = 1.
Proof.
  destruct (@parseDocument_single_document sample_engine "a: 1" VUndefined
              (mk_document 0 [] [] "warn" [0; 4; 4]%Z) eq_refl eq_refl)
    as (Hdoc & Hn & _).
  split; [exact Hdoc | exact Hn].
Defined.

(** [parseAllDocuments] returns the empty-stream marker with the stream
    information exactly when the stream holds no document; otherwise it
    returns the composed documents, as many and in the same order, each
    with as many errors as composed (none is added, whatever the number of
    documents), untouched when [prettyErrors] is [false]. *)
Theorem parseAllDocuments_keeps_the_stream `{Engine} `{StreamEngine}
    (source : string) (options : value)
    (Hoptions : is_null options = false) :
  let options' := if is_undefined options then VObj [] else options in
  let composed := compose_all source options' in
  match parseAllDocuments source options with
  | Ok (Docs ds) =>
      composed <> []
      /\ map doc_id ds = map doc_id composed
      /\ map (fun d => List.length (errors d)) ds
         = map (fun d => List.length (errors d)) composed
      /\ (is_false (get_prop options' "prettyErrors") = true -> ds = composed)
  | Ok (EmptyStream info) => composed = [] /\ info = streamInfo source options'
  | Throw _ => False
  end.
Proof.
  cbv zeta. unfold parseAllDocuments.
  set (options' := if is_undefined options then VObj [] else options).
  assert (Hnn : nullish options' = false).
  { unfold options', nullish. destruct options; try discriminate; reflexivity. }
  unfold parseOptions. rewrite Hnn.
  set (lineCounter := or_else _ VNull).
  destruct (is_false (get_prop options' "prettyErrors")) eqn:Hp; simpl negb; cbv iota.
  - simpl andb. cbv iota.
    destruct (compose_all source options') as [|d ds]; simpl; auto.
    repeat split; auto. discriminate.
  - assert (Ht : truthy lineCounter = true).
    { unfold lineCounter, or_else.
      destruct (truthy (get_prop options' "lineCounter")) eqn:Hl; simpl; now rewrite ?Hl. }
    rewrite Ht. simpl andb. cbv iota.
    destruct (compose_all source options') as [|d ds]; simpl; auto.
    repeat split; try discriminate.
    + f_equal. rewrite map_map. reflexivity.
    + rewrite length_map. f_equal. rewrite map_map. apply map_ext.
      intros a. simpl. apply length_map.
Qed.

Lemma parseAllDocuments_witness :
  match @parseAllDocuments sample_engine sample_stream three_docs_source VUndefined with
  | Ok (Docs ds) => map doc_id ds = [1; 2; 3]
  | _ => False
  end.
Proof.
  pose proof (@parseAllDocuments_keeps_the_stream sample_engine sample_stream
                three_docs_source VUndefined eq_refl) as Hthree.
  cbv zeta in Hthree.
  destruct (@parseAllDocuments sample_engine sample_stream three_docs_source VUndefined)
    as [[ds|info]|e].
  - destruct Hthree as (_ & Hids & _). exact Hids.
  - destruct Hthree as [Hempty _]. discriminate Hempty.
  - exact Hthree.
Defined.

(** ** The benchmark drivers *)

Lemma bind_assoc {A B C : Type} (m : M A) (f : A -> M B) (g : B -> M C) (w : world) :
  bind (bind m f) g w = bind m (fun x => bind (f x) g) w.
Proof.
  unfold bind. destruct (m w) as [[a|e] w']; reflexivity.
Qed.

Lemma bind_ext {A B : Type} (m : M A) (f g : A -> M B) (w : world) :
  (forall (a : A) (w' : world), f a w' = g a w') -> bind m f w = bind m g w.
Proof.
  intros Hfg. unfold bind. destruct (m w) as [[a|e] w']; [apply Hfg | reflexivity].
Qed.

Lemma repeat_call_plus {A : Type} (n m : nat) (body : M A) (w : world) :
  (repeat_call n body ;; repeat_call m body)%js w = repeat_call (n + m) body w.
Proof.
  revert w. induction n as [|n IH]; intros w; simpl.
  - reflexivity.
  - rewrite bind_assoc. unfold bind at 1 3.
    destruct (body w) as [[a|e] w']; [apply IH | reflexivity].
Qed.

(** A call without reviver on a cache that holds the key of the call,
    bound to a defined value, and nothing else *)
Lemma parse_on_single `{Engine} (src : string) (reviver options : value)
    (w : world) (v : value) :
  is_function reviver = false ->
  LRUCache.cache (TrackedLRUCache.base (parseCache w))
  = [(parse_cacheKey src (parse_options reviver options) VUndefined, v)] ->
  is_undefined v = false ->
  parse src reviver options w
  = (Ok v,
     mk_world (TrackedLRUCache.mk (TrackedLRUCache.base (parseCache w))
                 (TrackedLRUCache.hits (parseCache w) + 1)
                 (TrackedLRUCache.misses (parseCache w)))
              (stringifyCache w) (warn_calls w)).
Proof.
  intros Hf Hc Hv.
  destruct (parse_without_reviver src reviver options w Hf) as [_ ->]. cbv zeta.
  set (key := parse_cacheKey src (parse_options reviver options) VUndefined) in *.
  destruct w as [[[cache maxSize] h m] sc wc]. simpl in Hc. subst cache.
  unfold TrackedLRUCache.get, LRUCache.get. simpl.
  destruct (string_dec key key) as [_|Hne]; [| contradiction].
  rewrite Hv. simpl.
  destruct (string_dec key key) as [_|Hne]; [| contradiction].
  simpl. rewrite Hv. simpl. rewrite Hv. reflexivity.
Qed.

Lemma repeat_on_single `{Engine} (src : string) (reviver options : value)
    (v : value) (n : nat) (w : world) :
  is_function reviver = false ->
  LRUCache.cache (TrackedLRUCache.base (parseCache w))
  = [(parse_cacheKey src (parse_options reviver options) VUndefined, v)] ->
  is_undefined v = false ->
  repeat_call n (parse src reviver options) w
  = (Ok tt,
     mk_world (TrackedLRUCache.mk (TrackedLRUCache.base (parseCache w))
                 (TrackedLRUCache.hits (parseCache w) + Z.of_nat n)
                 (TrackedLRUCache.misses (parseCache w)))
              (stringifyCache w) (warn_calls w)).
Proof.
  intros Hf. revert w. induction n as [|n IH]; intros w Hc Hv.
  - simpl. unfold ret. destruct w as [[b h m] sc wc]. simpl.
    now rewrite Z.add_0_r.
  - cbn [repeat_call]. unfold bind.
    rewrite (parse_on_single src reviver options w Hf Hc Hv).
    rewrite IH; simpl; auto.
    do 3 f_equal. lia.
Qed.

(** The first call after [clearCaches], when it returns a value *)
Lemma first_parse_after_clear `{Engine} (src : string) (reviver options : value)
    (w : world) (v : value) :
  is_function reviver = false ->
  fst (parse src reviver options (clearCaches w)) = Ok v ->
  let w1 := snd (parse src reviver options (clearCaches w)) in
  LRUCache.cache (TrackedLRUCache.base (parseCache w1))
  = [(parse_cacheKey src (parse_options reviver options) VUndefined, v)]
  /\ TrackedLRUCache.hits (parseCache w1) = TrackedLRUCache.hits (parseCache w)
  /\ TrackedLRUCache.misses (parseCache w1) = (TrackedLRUCache.misses (parseCache w) + 1)%Z
  /\ stringifyCache w1 = TrackedLRUCache.clear (stringifyCache w).
Proof.
  intros Hf. cbv zeta.
  rewrite (parse_on_miss src reviver options (clearCaches w) Hf eq_refl).
  set (key := parse_cacheKey src (parse_options reviver options) VUndefined).
  intros Hfirst.
  destruct (@parse_compute_effect _ src (parse_options reviver options) VUndefined key
              (after_miss (clearCaches w)) eq_refl) as [Hp Hs].
  rewrite Hfirst in Hp. rewrite Hp, Hs. simpl.
  repeat split. unfold LRUCache.set. simpl.
  now destruct (LRUCache.maxSize _ <=? 0)%Z.
Qed.

(** [benchmarkParse] on a content that parses to a value: the run makes
    one call that misses and [iterations - 1] calls that hit.  The
    counters it reports continue those of the process ([clearCaches]
    empties the stores and keeps the counters), the parse cache holds one
    entry and the stringify cache none.  [benchmarkCacheEffectiveness]
    with as many repetitions does the same calls and reads the same
    statistics. *)
Theorem benchmarkParse_counts `{Engine} (yamlContent : string) (iterations : Z)
    (w : world) (v : value)
    (Hiterations : (1 <= iterations)%Z)
    (Hfirst : fst (parse yamlContent VUndefined VUndefined (clearCaches w)) = Ok v)
    (Hdefined : is_undefined v = false) :
  exists stats : TrackedLRUCache.stats_t * TrackedLRUCache.stats_t,
    fst (benchmarkParse yamlContent iterations w) = Ok stats
    /\ TrackedLRUCache.s_hits (fst stats)
       = (TrackedLRUCache.hits (parseCache w) + iterations - 1)%Z
    /\ TrackedLRUCache.s_misses (fst stats)
       = (TrackedLRUCache.misses (parseCache w) + 1)%Z
    /\ TrackedLRUCache.s_size (fst stats) = 1
    /\ TrackedLRUCache.s_size (snd stats) = 0
    /\ TrackedLRUCache.s_hits (snd stats) = TrackedLRUCache.hits (stringifyCache w)
    /\ TrackedLRUCache.s_misses (snd stats) = TrackedLRUCache.misses (stringifyCache w)
    /\ benchmarkCacheEffectiveness yamlContent iterations w
       = benchmarkParse yamlContent iterations w.
Proof.
  assert (Hn : Z.to_nat iterations = S (Z.to_nat (iterations - 1))) by lia.
  destruct (first_parse_after_clear yamlContent VUndefined VUndefined w eq_refl Hfirst)
    as (Hc & Hh & Hm & Hs).
  assert (Hsame : benchmarkCacheEffectiveness yamlContent iterations w
                  = benchmarkParse yamlContent iterations w).
  { unfold benchmarkCacheEffectiveness, benchmarkParse. rewrite Hn.
    cbn [repeat_call]. apply bind_ext. intros _ w'. symmetry. apply bind_assoc. }
  rewrite <- Hsame. unfold benchmarkCacheEffectiveness.
  unfold bind at 1, do_clearCaches. unfold bind at 1.
  destruct (parse yamlContent VUndefined VUndefined (clearCaches w)) as [r w1] eqn:Hp.
  simpl in Hfirst, Hc, Hh, Hm, Hs. subst r.
  unfold bind at 1.
  rewrite (@repeat_on_single _ yamlContent VUndefined VUndefined v
             (Z.to_nat (iterations - 1)) w1 eq_refl Hc Hdefined).
  unfold read_stats, getCacheStats. eexists. split; [reflexivity |].
  simpl. unfold TrackedLRUCache.size, LRUCache.size. simpl.
  rewrite Hc, Hh, Hm, Hs. simpl.
  repeat split; lia.
Qed.

Lemma benchmarkParse_witness :
  exists stats : TrackedLRUCache.stats_t * TrackedLRUCache.stats_t,
    fst (@benchmarkParse sample_engine "a: 1" 1000 initial_world) = Ok stats
    /\ TrackedLRUCache.s_hits (fst stats) = 999%Z
    /\ TrackedLRUCache.s_misses (fst stats) = 1%Z.
Proof.
  destruct (@benchmarkParse_counts sample_engine "a: 1" 1000 initial_world
              (VObj [("doc"%string, VNum (NFin (inject_Z 0)))])
              ltac:(lia) eq_refl eq_refl) as (stats & Hres & Hh & Hm & _).
  exists stats. split; [exact Hres | split; [exact Hh | exact Hm]].
Defined.

Lemma repeat_call_frame {A : Type} (body : M A) (n : nat) (w : world) :
  (forall w0 : world, snd (body w0) = w0) -> snd (repeat_call n body w) = w.
Proof.
  intros Hbody. induction n as [|n IH]; simpl; auto.
  unfold bind. specialize (Hbody w).
  destruct (body w) as [[a|e] w']; simpl in *; subst; auto.
Qed.

(** [benchmarkStringify] on data that is not cacheable, such as the
    mappings and sequences that [parse] returns: no call reads or fills
    the stringify cache, so the statistics read at the end are those of
    the process before the run, with both stores empty. *)
Theorem benchmarkStringify_never_uses_the_cache `{Engine} (data : value)
    (iterations : Z) (w : world)
    (Hdata : spec_stringify_cacheable data VUndefined = false) :
  snd (benchmarkStringify data iterations w) = clearCaches w
  /\ match fst (benchmarkStringify data iterations w) with
     | Ok stats =>
         TrackedLRUCache.s_hits (snd stats) = TrackedLRUCache.hits (stringifyCache w)
         /\ TrackedLRUCache.s_misses (snd stats) = TrackedLRUCache.misses (stringifyCache w)
         /\ TrackedLRUCache.s_size (snd stats) = 0
     | Throw _ => True
     end.
Proof.
  assert (Hbody : forall w0 : world, snd (stringify_and_measure data w0) = w0).
  { intros w0. unfold stringify_and_measure, bind.
    destruct (stringify_cases data VUndefined VUndefined w0) as [[Hc _]|[_ Hw]];
      [congruence |].
    destruct (stringify data VUndefined VUndefined w0) as [[r|e] w']; simpl in *; subst;
      [| reflexivity].
    now destruct (nullish r). }
  pose proof (repeat_call_frame (stringify_and_measure data) (Z.to_nat iterations)
                (clearCaches w) Hbody) as Hrun.
  unfold benchmarkStringify, bind, do_clearCaches, read_stats.
  destruct (repeat_call (Z.to_nat iterations) (stringify_and_measure data) (clearCaches w))
    as [[u|e] w']; simpl in *; subst; auto.
Qed.

Lemma benchmarkStringify_witness :
  snd (@benchmarkStringify sample_engine
         (VObj [("name"%string, VStr "John Doe")]) 5000 initial_world)
  = clearCaches initial_world.
Proof.
  exact (proj1 (@benchmarkStringify_never_uses_the_cache sample_engine
                  (VObj [("name"%string, VStr "John Doe")]) 5000 initial_world eq_refl)).
Defined.

(** One call of [parse] without reviver counts exactly once: a hit or a
    miss. *)
Lemma parse_counts_once `{Engine} (src : string) (reviver options : value) (w : world) :
  is_function reviver = false ->
  let w1 := snd (parse src reviver options w) in
  (TrackedLRUCache.hits (parseCache w1) = (TrackedLRUCache.hits (parseCache w) + 1)%Z
   /\ TrackedLRUCache.misses (parseCache w1) = TrackedLRUCache.misses (parseCache w))
  \/ (TrackedLRUCache.hits (parseCache w1) = TrackedLRUCache.hits (parseCache w)
      /\ TrackedLRUCache.misses (parseCache w1)
         = (TrackedLRUCache.misses (parseCache w) + 1)%Z).
Proof.
  intros Hf. cbv zeta.
  set (key := parse_cacheKey src (parse_options reviver options) VUndefined).
  destruct (is_undefined (JSMap.get string_dec key
              (LRUCache.cache (TrackedLRUCache.base (parseCache w))))) eqn:Hu.
  - right. rewrite (parse_on_miss src reviver options w Hf Hu). fold key.
    destruct (@parse_compute_effect _ src (parse_options reviver options) VUndefined key
                (after_miss w) eq_refl) as [-> _].
    destruct (fst (parse_compute _ _ _ _ _)); simpl; auto.
  - left. destruct (parse_hit src reviver options w Hf) as (_ & Hh & Hm & _).
    + destruct (parse_without_reviver src reviver options w Hf) as [-> _]. exact Hu.
    + auto.
Qed.

Lemma repeat_hits `{Engine} (src : string) (reviver options : value) (n : nat)
    (w : world) :
  is_function reviver = false ->
  is_undefined (JSMap.get string_dec
                  (parse_cacheKey src (parse_options reviver options) VUndefined)
                  (LRUCache.cache (TrackedLRUCache.base (parseCache w)))) = false ->
  let out := repeat_call n (parse src reviver options) w in
  fst out = Ok tt
  /\ TrackedLRUCache.hits (parseCache (snd out))
     = (TrackedLRUCache.hits (parseCache w) + Z.of_nat n)%Z
  /\ TrackedLRUCache.misses (parseCache (snd out)) = TrackedLRUCache.misses (parseCache w).
Proof.
  intros Hf. cbv zeta. revert w. induction n as [|n IH]; intros w Hu.
  - simpl. repeat split. lia.
  - cbn [repeat_call]. unfold bind.
    destruct (parse_without_reviver src reviver options w Hf) as [Hr _].
    destruct (parse_hit src reviver options w Hf) as (Hres & Hh & Hm & Hkeep);
      [now rewrite Hr |].
    rewrite Hr in Hkeep.
    destruct (parse src reviver options w) as [r w1]. simpl in *. subst r.
    destruct (IH w1) as (Hres' & Hh' & Hm'); [now rewrite Hkeep |].
    repeat split; auto; lia.
Qed.

(** [benchmark(name, () => parse(src), iterations)]: when the first call
    returns a value, all [iterations + 10] calls return, each is counted
    once, and at most the first of them is a miss: the timed iterations
    are all answered from the cache. *)
Theorem benchmark_measures_the_cache `{Engine} (src : string) (reviver options : value)
    (iterations : Z) (w : world) (v : value)
    (Hiterations : (0 <= iterations)%Z)
    (Hreviver : is_function reviver = false)
    (Hfirst : fst (parse src reviver options w) = Ok v)
    (Hdefined : is_undefined v = false) :
  let out := benchmark (parse src reviver options) iterations w in
  fst out = Ok tt
  /\ (TrackedLRUCache.hits (parseCache (snd out))
      + TrackedLRUCache.misses (parseCache (snd out))
      = TrackedLRUCache.hits (parseCache w) + TrackedLRUCache.misses (parseCache w)
        + 10 + iterations)%Z
  /\ (TrackedLRUCache.misses (parseCache (snd out))
      <= TrackedLRUCache.misses (parseCache w) + 1)%Z.
Proof.
  cbv zeta. unfold benchmark. rewrite repeat_call_plus.
  change (10 + Z.to_nat iterations) with (S (9 + Z.to_nat iterations)).
  remember (9 + Z.to_nat iterations) as m eqn:Hm9.
  cbn [repeat_call]. unfold bind.
  pose proof (bound_after_parse src reviver options w Hreviver Hfirst Hdefined) as Hb.
  pose proof (parse_counts_once src reviver options w Hreviver) as Hone.
  cbv zeta in Hone.
  destruct (parse src reviver options w) as [r w1]. simpl in *. subst r.
  destruct (@repeat_hits _ src reviver options m w1 Hreviver)
    as (Hres & Hh & Hm); [now rewrite Hb |].
  split; [exact Hres |]. rewrite Hh, Hm. lia.
Qed.

Lemma benchmark_witness :
  let out := @benchmark _ (@parse sample_engine "a: 1" VUndefined VUndefined) 10000
               initial_world in
  fst out = Ok tt
  /\ (TrackedLRUCache.misses (parseCache (snd out)) <= 1)%Z.
Proof.
  cbv zeta.
  destruct (@benchmark_measures_the_cache sample_engine "a: 1" VUndefined VUndefined
              10000 initial_world (VObj [("doc"%string, VNum (NFin (inject_Z 0)))])
              ltac:(lia) eq_refl eq_refl eq_refl) as (Hres & _ & Hm).
  split; [exact Hres | exact Hm].
Defined.

(** ** A reviver given in the options *)

(** A property whose value is a function is not written by
    [JSON.stringify]. *)
Lemma JSON_function_field_dropped `{Engine} (before after : list (string * value))
    (name : string) (f : nat) :
  JSON_stringify (VObj (before ++ (name, VFun f) :: after))
  = JSON_stringify (VObj (before ++ after)).
Proof.
  rewrite !JSON_stringify_object, !flat_map_app. reflexivity.
Qed.

(** C4: against the claim, a call of [parse] that supplies its reviver
    function as the [reviver] field of the options object,
    [parse(src, { ..., reviver: f, ... })], goes through the parse cache.
    The reviver argument of such a call is not a function, so [_reviver]
    stays undefined and both cache accesses are taken; [JSON.stringify]
    leaves the function out, so the call has the key of the same call
    without the field.  The call counts one read of the cache; when the
    key is bound to a defined value it returns that value, a hit, without
    the reviver being applied; and a defined value that it returns is
    bound to the key afterwards, so that the next call without the
    reviver returns the revived value from the cache, as a hit. *)
Theorem C4_reviver_in_options_uses_the_cache `{Engine}
    (src : string) (before after : list (string * value)) (f : nat) (w : world) :
  let options := VObj (before ++ ("reviver"%string, VFun f) :: after) in
  let plain := VObj (before ++ after) in
  let key := parse_cacheKey src (parse_options plain VUndefined) (parse_reviver plain) in
  let out := parse src options VUndefined w in
  let bound := JSMap.get string_dec key
                 (LRUCache.cache (TrackedLRUCache.base (parseCache w))) in
  parse_cacheKey src (parse_options options VUndefined) (parse_reviver options) = key
  /\ cache_reads (parseCache (snd out)) = (cache_reads (parseCache w) + 1)%Z
  /\ (is_undefined bound = false ->
      fst out = Ok bound
      /\ TrackedLRUCache.hits (parseCache (snd out))
         = (TrackedLRUCache.hits (parseCache w) + 1)%Z)
  /\ (forall v : value,
        fst out = Ok v -> is_undefined v = false ->
        JSMap.get string_dec key
          (LRUCache.cache (TrackedLRUCache.base (parseCache (snd out)))) = v
        /\ fst (parse src plain VUndefined (snd out)) = Ok v
        /\ TrackedLRUCache.hits (parseCache (snd (parse src plain VUndefined (snd out))))
           = (TrackedLRUCache.hits (parseCache (snd out)) + 1)%Z).
Proof.
  cbv zeta.
  set (options := VObj (before ++ ("reviver"%string, VFun f) :: after)).
  set (plain := VObj (before ++ after)).
  assert (Hf : is_function options = false) by reflexivity.
  assert (Hfp : is_function plain = false) by reflexivity.
  assert (Ho : parse_options options VUndefined = options) by reflexivity.
  assert (Hp : parse_options plain VUndefined = plain) by reflexivity.
  assert (Hr : parse_reviver options = VUndefined) by reflexivity.
  assert (Hrp : parse_reviver plain = VUndefined) by reflexivity.
  assert (Hkey : parse_cacheKey src options VUndefined = parse_cacheKey src plain VUndefined).
  { unfold parse_cacheKey, parse_key_text, options, plain.
    now rewrite !or_else_object, JSON_function_field_dropped. }
  rewrite Ho, Hp, Hr, Hrp.
  split; [exact Hkey | split; [| split]].
  - pose proof (parse_counts_once src options VUndefined w Hf) as Hone.
    cbv zeta in Hone. unfold cache_reads. lia.
  - intros Hbound.
    destruct (parse_hit src options VUndefined w Hf) as (Hres & Hh & _ & _).
    + now rewrite Ho, Hr, Hkey.
    + rewrite Ho, Hr, Hkey in Hres. auto.
  - intros v Hfirst Hv.
    pose proof (bound_after_parse src options VUndefined w Hf Hfirst Hv) as Hb.
    rewrite Ho, Hkey in Hb.
    split; [exact Hb |].
    destruct (parse_hit src plain VUndefined (snd (parse src options VUndefined w)) Hfp)
      as (Hres & Hh & _ & _).
    + rewrite Hp, Hrp, Hb. exact Hv.
    + rewrite Hp, Hrp, Hb in Hres. auto.
Qed.

(** At [parse('a: 1', { reviver: f })] followed by [parse('a: 1', {})]
    or [parse('a: 1')], with an engine that applies the reviver: the first
    call stores the revived value and the second call returns it, where
    on fresh caches it returns the plain one. *)
Lemma C4_witness :
  let revived := VObj [("doc"%string, VNum (NFin (inject_Z 0)));
                       ("revived"%string, VBool true)] in
  let first := @parse reviving_engine "a: 1"
                 (VObj [("reviver"%string, VFun 0)]) VUndefined initial_world in
  let second := @parse reviving_engine "a: 1" (VObj []) VUndefined (snd first) in
  let second' := @parse reviving_engine "a: 1" VUndefined VUndefined (snd first) in
  fst first = Ok revived
  /\ TrackedLRUCache.misses (parseCache (snd first)) = 1%Z
  /\ JSMap.size (LRUCache.cache (TrackedLRUCache.base (parseCache (snd first)))) = 1
  /\ fst second = Ok revived
  /\ TrackedLRUCache.hits (parseCache (snd second)) = 1%Z
  /\ fst second' = Ok revived
  /\ TrackedLRUCache.hits (parseCache (snd second')) = 1%Z
  /\ fst (@parse reviving_engine "a: 1" VUndefined VUndefined initial_world)
     = Ok (VObj [("doc"%string, VNum (NFin (inject_Z 0)))]).
Proof.
  cbv zeta.
  destruct (@C4_reviver_in_options_uses_the_cache reviving_engine "a: 1" [] [] 0
              initial_world) as (_ & _ & _ & Hstore).
  destruct (Hstore (VObj [("doc"%string, VNum (NFin (inject_Z 0)));
                          ("revived"%string, VBool true)]) eq_refl eq_refl)
    as (_ & Hsecond & Hhits).
  split; [reflexivity | split; [reflexivity | split; [reflexivity |]]].
  split; [exact Hsecond | split; [exact Hhits |]].
  split; [reflexivity | split; reflexivity].
Defined.
